(** * FormKit add-ons: multi-step navigation and local-storage persistence

    A shallow embedding of [packages/addons/dist/index.d.ts] (the bundled
    source of @formkit/addons): the multi-step plugin's step registry and
    navigation controller, and the local-storage plugin's save/load logic.

    Step contexts are shared mutable objects: the container's [steps] array
    holds references to them and every context points back to that array.
    They live in a heap ([gmap nat StepContext]); arrays are never mutated
    once shared, so an array is its identity together with its elements. *)

From Stdlib Require Import ZArith Lia Ascii.
From stdpp Require Import base option list gmap strings pretty.

Set Warnings "-register-all".
Local Open Scope string_scope.
Local Open Scope Z_scope.

(** ** JavaScript values *)

Module JS.

(** The fragment of JavaScript values the plugins handle. Numbers are the
    integers (indices, counts, epoch milliseconds) and NaN; a function is
    named by an identifier. *)
Inductive jsval : Type :=
| JUndefined
| JNull
| JBool (b : bool)
| JNum (n : Z)
| JNaN
| JStr (s : string)
| JArr (items : list jsval)
| JObj (fields : list (string * jsval))
| JFun (f : nat).

Inductive jstype : Type :=
| TUndefined | TObject | TBoolean | TNumber | TString | TFunction.

(** [typeof v] *)
Definition typeof (v : jsval) : jstype :=
  match v with
  | JUndefined => TUndefined
  | JNull | JArr _ | JObj _ => TObject
  | JBool _ => TBoolean
  | JNum _ | JNaN => TNumber
  | JStr _ => TString
  | JFun _ => TFunction
  end.

(** ToBoolean: what [if (v)], [!v], [v || w] and [v && w] test. *)
Definition truthy (v : jsval) : bool :=
  match v with
  | JUndefined | JNull | JNaN => false
  | JBool b => b
  | JNum n => negb (n =? 0)
  | JStr s => negb (String.eqb s "")
  | JArr _ | JObj _ | JFun _ => true
  end.

(** [a || b] *)
Definition js_or (a b : jsval) : jsval := if truthy a then a else b.

(** [a && b] *)
Definition js_and (a b : jsval) : jsval := if truthy a then b else a.

(** [typeof v === 'boolean' && !v] *)
Definition is_false (v : jsval) : bool :=
  match v with
  | JBool false => true
  | _ => false
  end.

(** [o.k] on a parsed value; a missing property, or a property of a
    primitive, reads as [undefined]. *)
Definition get_prop (o : jsval) (k : string) : jsval :=
  match o with
  | JObj fields =>
      match list_find (λ kv, kv.1 = k) fields with
      | Some (_, (_, v)) => v
      | None => JUndefined
      end
  | _ => JUndefined
  end.

(** How an awaited promise settles. *)
Inductive settled : Type :=
| Fulfilled (v : jsval)
| Rejected (e : jsval).

(** What a function body can throw. *)
Inductive exn : Type :=
| TypeError
| SyntaxError
| Uncaught (e : jsval).

End JS.
Export JS.

(** ** Multi-step plugin: data model *)

Module MultiStep.

(** An array object: arrays are compared by identity ([step.steps = steps]
    stores a reference), and every array the plugin shares is a fresh one
    ([filter], spread, a sorted copy) that is not mutated afterwards. *)
Record JSArray : Type := mkArray {
  array_id : nat;
  elems : list nat;
}.

(** [step.node.props] of a step. *)
Record StepProps : Type := mkStepProps {
  beforeStepChange : jsval;
}.

(** [step.node]. A placeholder made by [createSSRStepsFromTabs] has a node
    with a name only: no parent and no props. *)
Record StepNode : Type := mkStepNode {
  name : string;
  parent : option nat;
  props : option StepProps;
}.

(** [step.state] *)
Record StepState : Type := mkStepState {
  valid : bool;
}.

(** A step's framework context, the object stored in [props.steps].
    A position field is [None] until [setNodePositionProps] writes it. *)
Record StepContext : Type := mkStep {
  ctx_id : string;
  node : StepNode;
  state : option StepState;
  disabled : bool;
  __isPlaceholder : bool;
  ordered : bool;
  isFirstStep : option bool;
  isLastStep : option bool;
  stepIndex : option nat;
  steps : option JSArray;
}.

(** A message of the node's store, as [createMessage] is given it. *)
Record FormKitMessage : Type := mkMessage {
  msg_value : jsval;
  msg_visible : bool;
}.

(** The multi-step container node: [node.props], [node.store] and whether
    [node.context] is set. [props___root] lists the ids of the mounted
    elements in document order ([None]: no root). *)
Record MultiStepNode : Type := mkNode {
  props_steps : option JSArray;
  props_activeStep : option string;
  props_allowIncomplete : jsval;
  props_beforeStepChange : jsval;
  props_disabled : bool;
  props___root : option (list string);
  store : gmap string FormKitMessage;
  has_context : bool;
}.

(** The heap of step contexts, the multi-step nodes, and the identity the
    next new array gets. *)
Record World : Type := mkWorld {
  contexts : gmap nat StepContext;
  nodes : gmap nat MultiStepNode;
  next_array : nat;
}.

(** The argument object the guard receives. *)
Record BeforeStepChangeData : Type := mkData {
  currentStep : nat;
  targetStep : nat;
  delta : jsval;
}.

(** An [async] function run up to its next [await] of the guard: it has
    returned, has thrown, or is suspended on guard [g] called with [d] in
    world [w], to be resumed with the way the guard settles. A guard is
    known by the way its promise settles; what else it may do to the world
    is not part of the model. *)
Inductive Async (R : Type) : Type :=
| Return (r : R) (w : World)
| Throw (e : exn) (w : World)
| Await (g : nat) (d : BeforeStepChangeData) (w : World) (k : settled → Async R).
Arguments Return {R} r w.
Arguments Throw {R} e w.
Arguments Await {R} g d w k.

Fixpoint bind {A B : Type} (m : Async A) (f : A → World → Async B) : Async B :=
  match m with
  | Return r w => f r w
  | Throw e w => Throw e w
  | Await g d w k => Await g d w (λ s, bind (k s) f)
  end.

(** Run a computation against a guard environment: how each guard settles
    on each argument. *)
Fixpoint run {R : Type} (guards : nat → BeforeStepChangeData → settled)
    (m : Async R) : (R + exn) * World :=
  match m with
  | Return r w => (inl r, w)
  | Throw e w => (inr e, w)
  | Await g d w k => run guards (k (guards g d))
  end.

(** The guard invocations made along that run, in order. *)
Fixpoint guard_calls {R : Type} (guards : nat → BeforeStepChangeData → settled)
    (m : Async R) : list (nat * BeforeStepChangeData) :=
  match m with
  | Return _ _ | Throw _ _ => []
  | Await g d w k => (g, d) :: guard_calls guards (k (guards g d))
  end.

(** The worlds in which the run is suspended on a guard, in order. *)
Fixpoint pending_worlds {R : Type} (guards : nat → BeforeStepChangeData → settled)
    (m : Async R) : list World :=
  match m with
  | Return _ _ | Throw _ _ => []
  | Await g d w k => w :: pending_worlds guards (k (guards g d))
  end.

(** *** Field updates: [step.f = v], [node.props.f = v] *)

Definition set_disabled (b : bool) (c : StepContext) : StepContext :=
  mkStep c.(ctx_id) c.(node) c.(state) b c.(__isPlaceholder) c.(ordered)
         c.(isFirstStep) c.(isLastStep) c.(stepIndex) c.(steps).

Definition set_ordered (b : bool) (c : StepContext) : StepContext :=
  mkStep c.(ctx_id) c.(node) c.(state) c.(disabled) c.(__isPlaceholder) b
         c.(isFirstStep) c.(isLastStep) c.(stepIndex) c.(steps).

Definition set_position (first last : bool) (index : nat) (arr : JSArray)
    (c : StepContext) : StepContext :=
  mkStep c.(ctx_id) c.(node) c.(state) c.(disabled) c.(__isPlaceholder)
         c.(ordered) (Some first) (Some last) (Some index) (Some arr).

Definition set_props_disabled (b : bool) (n : MultiStepNode) : MultiStepNode :=
  mkNode n.(props_steps) n.(props_activeStep) n.(props_allowIncomplete)
         n.(props_beforeStepChange) b n.(props___root) n.(store) n.(has_context).

Definition set_props_steps (a : option JSArray) (n : MultiStepNode) : MultiStepNode :=
  mkNode a n.(props_activeStep) n.(props_allowIncomplete)
         n.(props_beforeStepChange) n.(props_disabled) n.(props___root)
         n.(store) n.(has_context).

Definition set_props_activeStep (a : option string) (n : MultiStepNode) : MultiStepNode :=
  mkNode n.(props_steps) a n.(props_allowIncomplete)
         n.(props_beforeStepChange) n.(props_disabled) n.(props___root)
         n.(store) n.(has_context).

Definition set_props_allowIncomplete (v : jsval) (n : MultiStepNode) : MultiStepNode :=
  mkNode n.(props_steps) n.(props_activeStep) v
         n.(props_beforeStepChange) n.(props_disabled) n.(props___root)
         n.(store) n.(has_context).

Definition set_store (m : gmap string FormKitMessage) (n : MultiStepNode) : MultiStepNode :=
  mkNode n.(props_steps) n.(props_activeStep) n.(props_allowIncomplete)
         n.(props_beforeStepChange) n.(props_disabled) n.(props___root)
         m n.(has_context).

Definition with_contexts (h : gmap nat StepContext) (w : World) : World :=
  mkWorld h w.(nodes) w.(next_array).

Definition with_nodes (ns : gmap nat MultiStepNode) (w : World) : World :=
  mkWorld w.(contexts) ns w.(next_array).

(** *** Arrays *)

(** [steps.indexOf(step)]: the first position of the reference, -1 if absent. *)
Fixpoint indexOf_from (l : list nat) (x : nat) (i : Z) : Z :=
  match l with
  | [] => -1
  | y :: l' => if decide (y = x) then i else indexOf_from l' x (i + 1)
  end.

Definition indexOf (l : list nat) (x : nat) : Z := indexOf_from l x 0.

(** [steps[i]]: [undefined] out of range. *)
Definition at_index (l : list nat) (i : Z) : option nat :=
  if decide (i < 0) then None else l !! Z.to_nat i.

(** [steps.forEach((step, index) => ...)] over a state. *)
Fixpoint forEach_from {St : Type} (f : nat → nat → St → St) (l : list nat)
    (index : nat) (s : St) : St :=
  match l with
  | [] => s
  | step :: l' => forEach_from f l' (S index) (f step index s)
  end.

(** A new array object. *)
Definition new_array (l : list nat) (w : World) : JSArray * World :=
  (mkArray w.(next_array) l, mkWorld w.(contexts) w.(nodes) (S w.(next_array))).

(** *** Navigation controller *)

(** [currentStep.node.parent], read in the world. *)
Definition parentNode_of (w : World) (c : StepContext) : option (nat * MultiStepNode) :=
  p ← c.(node).(parent); n ← w.(nodes) !! p; Some (p, n).

(** The state set before the guard is awaited ([if (parentNode) ...]). *)
Definition guard_pending (parentNode : option (nat * MultiStepNode)) (cur : nat)
    (w : World) : World :=
  match parentNode with
  | None => w
  | Some (p, _) =>
      mkWorld
        (alter (set_disabled true) cur w.(contexts))
        (alter (λ n, set_props_disabled true
                       (set_store (<["loading" := mkMessage (JBool true) false]> n.(store)) n))
               p w.(nodes))
        w.(next_array)
  end.

(** The state set after the guard has resolved. *)
Definition guard_resolved (parentNode : option (nat * MultiStepNode)) (cur : nat)
    (w : World) : World :=
  match parentNode with
  | None => w
  | Some (p, _) =>
      mkWorld
        (alter (set_disabled false) cur w.(contexts))
        (alter (λ n, set_props_disabled false (set_store (delete "loading" n.(store)) n))
               p w.(nodes))
        w.(next_array)
  end.

(** The loop [for (let i = 0; i < delta; i++)] with [n] iterations left:
    [intermediateStep = steps[currentStepIndex + i]] and
    [stepIsAllowed = allowIncomplete || intermediateStep.state?.valid]. *)
Fixpoint intermediateSteps (h : gmap nat StepContext) (steps : list nat)
    (allowIncomplete : jsval) (currentStepIndex i : Z) (n : nat) : bool + exn :=
  match n with
  | O => inl true
  | S n' =>
      if truthy allowIncomplete
      then intermediateSteps h steps allowIncomplete currentStepIndex (i + 1) n'
      else
        match at_index steps (currentStepIndex + i) ≫= (h !!.) with
        | None => inr TypeError
        | Some intermediateStep =>
            if from_option valid false intermediateStep.(state)
            then intermediateSteps h steps allowIncomplete currentStepIndex (i + 1) n'
            else inl false
        end
  end.

(** The part of [isTargetStepAllowed] after the guard: a backward move is
    allowed, a forward move is checked step by step. An index is [None]
    when there is no parent node ([undefined]): both comparisons then fail
    and the result is [true]. *)
Definition completionRule (w : World) (parentNode : option (nat * MultiStepNode))
    (allowIncomplete : jsval) (currentStepIndex targetStepIndex : option Z)
    : bool + exn :=
  match parentNode, currentStepIndex, targetStepIndex with
  | Some (p, _), Some ci, Some ti =>
      if decide (ti < ci) then inl true
      else
        match w.(nodes) !! p ≫= props_steps with
        | None => if decide (0 < ti - ci) then inr TypeError else inl true
        | Some arr =>
            intermediateSteps w.(contexts) arr.(elems) allowIncomplete ci 0
                              (Z.to_nat (ti - ci))
        end
  | _, _, _ => inl true
  end.

(** [return b], or the exception leaving the function. *)
Definition settle (r : bool + exn) (w : World) : Async bool :=
  match r with
  | inl b => Return b w
  | inr e => Throw e w
  end.

(** [targetStepIndex - currentStepIndex]; [undefined - undefined] is NaN. *)
Definition index_delta (currentStepIndex targetStepIndex : option Z) : jsval :=
  match currentStepIndex, targetStepIndex with
  | Some ci, Some ti => JNum (ti - ci)
  | _, _ => JNaN
  end.

(** [isTargetStepAllowed(currentStep, targetStep)]. [currentStep] is
    [None] when the caller's [find] returned [undefined]. The guard is
    called only when [beforeStepChange] is a function, here [JFun g]. *)
Definition isTargetStepAllowed (currentStep : option nat) (targetStep : nat)
    (w : World) : Async bool :=
  match currentStep with
  | None => Throw TypeError w
  | Some cur =>
      if decide (cur = targetStep) then Return true w
      else
        match w.(contexts) !! cur with
        | None => Throw TypeError w
        | Some c =>
            let parentNode := parentNode_of w c in
            let allowIncomplete :=
              from_option (λ pn, pn.2.(props_allowIncomplete)) JUndefined parentNode in
            match parentNode, parentNode ≫= (λ pn, pn.2.(props_steps)) with
            | Some _, None => Throw TypeError w
            | _, arr =>
                let currentStepIndex := (λ a, indexOf a.(elems) cur) <$> arr in
                let targetStepIndex := (λ a, indexOf a.(elems) targetStep) <$> arr in
                match c.(node).(props) with
                | None => Throw TypeError w
                | Some ps =>
                    match js_or ps.(beforeStepChange)
                                (from_option (λ pn, pn.2.(props_beforeStepChange))
                                             JUndefined parentNode) with
                    | JFun g =>
                        let w1 := guard_pending parentNode cur w in
                        Await g
                          (mkData cur targetStep
                                  (index_delta currentStepIndex targetStepIndex))
                          w1
                          (λ s,
                            match s with
                            | Rejected e => Throw (Uncaught e) w1
                            | Fulfilled result =>
                                let w2 := guard_resolved parentNode cur w1 in
                                if is_false result then Return false w2
                                else settle (completionRule w2 parentNode allowIncomplete
                                               currentStepIndex targetStepIndex) w2
                            end)
                    | _ =>
                        settle (completionRule w parentNode allowIncomplete
                                  currentStepIndex targetStepIndex) w
                    end
                end
            end
        end
  end.

(** [steps.find((step) => step.node.name === activeStep)] *)
Definition find_by_name (h : gmap nat StepContext) (l : list nat)
    (activeStep : option string) : option nat :=
  List.find
    (λ step, match h !! step with
             | Some c => bool_decide (Some c.(node).(name) = activeStep)
             | None => false
             end) l.

(** [node.parent.props.activeStep = name] *)
Definition assign_activeStep (p : nat) (s : string) (w : World) : World :=
  with_nodes (alter (set_props_activeStep (Some s)) p w.(nodes)) w.

(** [setActiveStep(targetStep)] (the event argument only has its default
    prevented). *)
Definition setActiveStep (targetStep : option nat) (w : World) : Async unit :=
  match targetStep ≫= (λ t, (t,.) <$> w.(contexts) !! t) with
  | None => Return tt w
  | Some (t, tc) =>
      if negb (String.eqb tc.(node).(name) "")
      then
        match parentNode_of w tc with
        | None => Return tt w
        | Some (p, n) =>
            match n.(props_steps) with
            | None => Throw TypeError w
            | Some arr =>
                let currentStep :=
                  find_by_name w.(contexts) arr.(elems) n.(props_activeStep) in
                bind (isTargetStepAllowed currentStep t w)
                     (λ stepIsAllowed w',
                        if stepIsAllowed &&
                           from_option has_context false (w'.(nodes) !! p)
                        then Return tt (assign_activeStep p tc.(node).(name) w')
                        else Return tt w')
            end
        end
      else Return tt w
  end.

(** [incrementStep(delta, currentStep)] *)
Definition incrementStep (delta : Z) (currentStep : option nat) (w : World)
    : Async unit :=
  match currentStep ≫= (λ c, (c,.) <$> w.(contexts) !! c) with
  | None => Return tt w
  | Some (cur, c) =>
      if negb (String.eqb c.(node).(name) "")
      then
        match parentNode_of w c with
        | None => Return tt w
        | Some (p, n) =>
            match n.(props_steps) with
            | None => Throw TypeError w
            | Some arr =>
                match c.(stepIndex) ≫= (λ stepIndex,
                        at_index arr.(elems) (Z.of_nat stepIndex + delta)) with
                | None => Return tt w
                | Some targetStep =>
                    bind (isTargetStepAllowed (Some cur) targetStep w)
                         (λ stepIsAllowed w',
                            if stepIsAllowed
                            then
                              match w'.(contexts) !! targetStep with
                              | Some tc =>
                                  Return tt (assign_activeStep p tc.(node).(name) w')
                              | None => Throw TypeError w'
                              end
                            else Return tt w')
                end
            end
        end
      else Return tt w
  end.

(** [node.goTo(target)] for a step index or a step name. *)
Definition goTo (p : nat) (target : Z + string) (w : World) : Async unit :=
  match w.(nodes) !! p ≫= props_steps with
  | None => Throw TypeError w
  | Some arr =>
      match target with
      | inl i => setActiveStep (at_index arr.(elems) i) w
      | inr s => setActiveStep (find_by_name w.(contexts) arr.(elems) (Some s)) w
      end
  end.

(** Whether the step a reference names is valid: [step.state?.valid]. *)
Definition step_valid (h : gmap nat StepContext) (step : nat) : bool :=
  from_option (λ c, from_option valid false c.(state)) false (h !! step).

(** A forward move from index [ci] to index [ti] is blocked: the policy is
    off and one of the steps at [ci], ..., [ti - 1] is not valid. *)
Definition forward_blocked (w : World) (n : MultiStepNode) (arr : JSArray)
    (ci ti : Z) : Prop :=
  truthy n.(props_allowIncomplete) = false ∧
  ∃ j r, ci ≤ j < ti ∧ at_index arr.(elems) j = Some r ∧
         step_valid w.(contexts) r = false.

(** The same with the current step left out: only the steps strictly
    between the two. *)
Definition between_blocked (w : World) (n : MultiStepNode) (arr : JSArray)
    (ci ti : Z) : Prop :=
  truthy n.(props_allowIncomplete) = false ∧
  ∃ j r, ci < j < ti ∧ at_index arr.(elems) j = Some r ∧
         step_valid w.(contexts) r = false.

(** The guard resolves, and to something other than [false]. *)
Definition resolves_not_false (s : settled) : bool :=
  match s with
  | Fulfilled v => negb (is_false v)
  | Rejected _ => false
  end.

(** *** Step registry *)

(** [steps.forEach((step, index) => { step.isFirstStep = index === 0; ... })] *)
Definition setNodePositionProps (steps : option JSArray)
    (h : gmap nat StepContext) : gmap nat StepContext :=
  match steps with
  | None => h
  | Some arr =>
      forEach_from
        (λ step index h,
           alter (set_position
                    (bool_decide (index = 0%nat))
                    (bool_decide (Z.of_nat index = Z.of_nat (length arr.(elems)) - 1))
                    index arr)
                 step h)
        arr.(elems) 0%nat h
  end.

(** [root?.getElementById(id)]: the element's place in document order. *)
Definition getElementById (root : option (list string)) (id : string) : option nat :=
  ids ← root; fst <$> list_find (λ x, x = id) ids.

(** The comparator of [orderSteps]: 0 when an element is missing, 1 when
    [bEl] precedes [aEl] ([compareDocumentPosition] is 2), -1 otherwise. *)
Definition compareSteps (root : option (list string)) (h : gmap nat StepContext)
    (a b : nat) : Z :=
  match h !! a ≫= (λ c, getElementById root c.(ctx_id)),
        h !! b ≫= (λ c, getElementById root c.(ctx_id)) with
  | Some aEl, Some bEl => if decide (bEl < aEl)%nat then 1 else -1
  | _, _ => 0
  end.

(** The options of [createMultiStepPlugin] that navigation depends on. *)
Record MultiStepOptions : Type := mkOptions {
  allowIncomplete : jsval;
}.

(** The container branch of the plugin, for [props.allowIncomplete]: the
    node's own prop if it is a boolean, else the plugin option if that is
    a boolean, else [true]. *)
Definition resolve_allowIncomplete (options : option MultiStepOptions)
    (prop : jsval) : jsval :=
  match typeof prop with
  | TBoolean => prop
  | _ =>
      let opt := from_option allowIncomplete JUndefined options in
      match typeof opt with
      | TBoolean => opt
      | _ => JBool true
      end
  end.

(** The plugin on a multi-step node, as far as [props.allowIncomplete]
    goes; it returns at once on a node without a context. *)
Definition multiStepPlugin (options : option MultiStepOptions) (p : nat)
    (w : World) : World :=
  match w.(nodes) !! p with
  | Some n =>
      if n.(has_context)
      then with_nodes
             (<[p := set_props_allowIncomplete
                       (resolve_allowIncomplete options n.(props_allowIncomplete)) n]>
                w.(nodes)) w
      else w
  | None => w
  end.

(** The child node an event carries: its name and [childNode.context]. *)
Record ChildNode : Type := mkChild {
  child_name : string;
  child_context : option nat;
}.

(** [step.__isPlaceholder] and [step.node.name] through a reference. *)
Definition is_placeholder (h : gmap nat StepContext) (step : nat) : bool :=
  from_option __isPlaceholder false (h !! step).

Definition step_name (h : gmap nat StepContext) (step : nat) : string :=
  from_option (λ c, c.(node).(name)) "" (h !! step).

(** The [filter] of the [childRemoved] handler: keeps the steps whose name
    differs from the removed child's and records the index of the last one
    dropped in [removedStepIndex]. *)
Fixpoint filter_removed (h : gmap nat StepContext) (removed : string)
    (l : list nat) (index removedStepIndex : Z) : list nat * Z :=
  match l with
  | [] => ([], removedStepIndex)
  | step :: l' =>
      if decide (step_name h step ≠ removed)
      then let '(kept, i) := filter_removed h removed l' (index + 1) removedStepIndex in
           (step :: kept, i)
      else filter_removed h removed l' (index + 1) index
  end.

(** Position metadata agrees with the array: every step of [arr] is
    first exactly at index 0, last exactly at index [length - 1], carries
    its index, and refers back to [arr] itself. *)
Definition positions_consistent (h : gmap nat StepContext) (arr : JSArray) : Prop :=
  ∀ i r, arr.(elems) !! i = Some r →
    ∃ c, h !! r = Some c ∧
         c.(isFirstStep) = Some (bool_decide (i = 0%nat)) ∧
         c.(isLastStep) = Some (bool_decide (i = (length arr.(elems) - 1)%nat)) ∧
         c.(stepIndex) = Some i ∧
         c.(steps) = Some arr.

(** The registry's list is in order: no step twice, every step allocated. *)
Definition registry_wf (h : gmap nat StepContext) (l : list nat) : Prop :=
  NoDup l ∧ ∀ r, r ∈ l → is_Some (h !! r).

Section Registry.

(** [typeof window !== 'undefined'] *)
Variable isBrowser : bool.

(** The engine's [Array.prototype.sort] on a copy of the array. *)
Variable Array_sort : (nat → nat → Z) → list nat → list nat.

(** [orderSteps(node, steps)]: outside a browser the same array; in a
    browser a sorted copy, every step of which is marked [ordered]. *)
Definition orderSteps (root : option (list string)) (steps : option JSArray)
    (w : World) : option JSArray * World :=
  match steps with
  | Some arr =>
      if isBrowser
      then
        let '(orderedSteps, w1) :=
          new_array (Array_sort (compareSteps root w.(contexts)) arr.(elems)) w in
        (Some orderedSteps,
         with_contexts
           (forEach_from (λ step _ h, alter (set_ordered true) step h)
                         orderedSteps.(elems) 0%nat w1.(contexts))
           w1)
      else (steps, w)
  | None => (None, w)
  end.

(** The first two statements of the [child] handler: drop the
    placeholder steps, then append the child's context
    ([[...steps, childNode.context]], or [[childNode.context]] when there
    is no non-empty array). *)
Definition appended_steps (n : MultiStepNode) (ctx : nat) (w : World)
    : JSArray * World :=
  let '(steps1, w1) :=
    match n.(props_steps) with
    | Some arr =>
        if bool_decide (0 < length arr.(elems))%nat
        then let '(a, w') :=
               new_array (filter (λ step, is_placeholder w.(contexts) step = false)
                                 arr.(elems)) w in
             (Some a, w')
        else (Some arr, w)
    | None => (None, w)
    end in
  new_array
    match steps1 with
    | Some arr =>
        if bool_decide (0 < length arr.(elems))%nat
        then arr.(elems) ++ [ctx] else [ctx]
    | None => [ctx]
    end w1.

(** The handler of [node.on('child')] of container [p]. The props the
    handler sets on the child node itself (stepName, the counts,
    isActiveStep) are not read by the registry or by navigation and are
    left out. A child without a context makes [setNodePositionProps] throw. *)
Definition on_child (p : nat) (childNode : ChildNode) (w : World) : World + exn :=
  match w.(nodes) !! p, childNode.(child_context) with
  | Some n, Some ctx =>
      let '(steps2, w2) := appended_steps n ctx w in
      let '(steps3, w3) := orderSteps n.(props___root) (Some steps2) w2 in
      let h := setNodePositionProps steps3 w3.(contexts) in
      let activeStep :=
        match n.(props_activeStep) with
        | Some s => if String.eqb s "" then None else Some s
        | None => None
        end in
      let activeStep' :=
        match activeStep with
        | Some s => Some s
        | None =>
            match steps3 ≫= (λ a, at_index a.(elems) 0) with
            | Some first => Some (step_name h first)
            | None => Some ""
            end
        end in
      inl (mkWorld h
             (<[p := set_props_activeStep activeStep' (set_props_steps steps3 n)]> w3.(nodes))
             w3.(next_array))
  | _, _ => inr TypeError
  end.

(** [childNode.props.ordered = false]. A step declares [ordered] among
    its props, and the bundle reads on a step's context what it writes
    through the step's props, so the write shows as the [ordered] field of
    the child's context. *)
Definition clear_ordered (childNode : ChildNode) (h : gmap nat StepContext)
    : gmap nat StepContext :=
  match childNode.(child_context) with
  | Some ctx => alter (set_ordered false) ctx h
  | None => h
  end.

(** The handler of [node.on('childRemoved')] of container [p]. *)
Definition on_childRemoved (p : nat) (childNode : ChildNode) (w : World)
    : World + exn :=
  match w.(nodes) !! p ≫= (λ n, (n,.) <$> n.(props_steps)) with
  | Some (n, arr) =>
      let w0 := with_contexts (clear_ordered childNode w.(contexts)) w in
      let '(kept, removedStepIndex) :=
        filter_removed w0.(contexts) childNode.(child_name) arr.(elems) 0 (-1) in
      let '(steps', w1) := new_array kept w0 in
      let h := setNodePositionProps (Some steps') w1.(contexts) in
      let activeStep' :=
        if decide (n.(props_activeStep) = Some childNode.(child_name))
        then
          let targetIndex :=
            if decide (0 < removedStepIndex) then removedStepIndex - 1 else 0 in
          match at_index steps'.(elems) targetIndex with
          | Some step => Some (step_name h step)
          | None => Some ""
          end
        else n.(props_activeStep) in
      inl (mkWorld h
             (<[p := set_props_activeStep activeStep' (set_props_steps (Some steps') n)]>
                w1.(nodes))
             w1.(next_array))
  | None => inr TypeError
  end.

(** The callback a step registers with [whenAvailable]: reorder and
    renumber the parent's steps once the step's element is mounted. *)
Definition on_available (p : nat) (root : option (list string)) (w : World) : World :=
  match w.(nodes) !! p with
  | Some n =>
      let '(steps', w1) := orderSteps root n.(props_steps) w in
      mkWorld (setNodePositionProps steps' w1.(contexts))
              (<[p := set_props_steps steps' n]> w1.(nodes))
              w1.(next_array)
  | None => w
  end.

(** One event of the registry of container [p]: a step that is mounted
    and not yet listed is attached, or a child is detached. *)
Inductive registry_step (p : nat) : World → World → Prop :=
| attach_step w w' childNode ctx :
    childNode.(child_context) = Some ctx →
    is_Some (w.(contexts) !! ctx) →
    (∀ n arr, w.(nodes) !! p = Some n → n.(props_steps) = Some arr →
              ctx ∉ arr.(elems)) →
    on_child p childNode w = inl w' →
    registry_step p w w'
| detach_step w w' childNode :
    on_childRemoved p childNode w = inl w' →
    registry_step p w w'.

End Registry.

(** Container [p] exists and its list, if it has one, is in order. *)
Definition container_wf (p : nat) (w : World) : Prop :=
  ∃ n, w.(nodes) !! p = Some n ∧
       ∀ arr, n.(props_steps) = Some arr → registry_wf w.(contexts) arr.(elems).

(** Container [p] has a list in order whose position metadata is
    consistent. *)
Definition container_consistent (p : nat) (w : World) : Prop :=
  ∃ n arr, w.(nodes) !! p = Some n ∧ n.(props_steps) = Some arr ∧
           registry_wf w.(contexts) arr.(elems) ∧
           positions_consistent w.(contexts) arr.

(** A stable insertion sort by a comparator, one sort the engine may run. *)
Fixpoint insert_by (cmp : nat → nat → Z) (x : nat) (l : list nat) : list nat :=
  match l with
  | [] => [x]
  | y :: l' => if decide (0 < cmp x y) then y :: insert_by cmp x l' else x :: l
  end.

Definition insertion_sort (cmp : nat → nat → Z) (l : list nat) : list nat :=
  foldr (insert_by cmp) [] l.

(** *** Example containers *)

(** A mounted step of container 0 named [nm], with validity [v] and own
    guard prop [g]. *)
Definition ex_step (nm : string) (v : bool) (g : jsval) : StepContext :=
  mkStep nm (mkStepNode nm (Some 0%nat) (Some (mkStepProps g)))
         (Some (mkStepState v)) false false false None None None None.

(** A container whose steps are the given ones at references 0, 1, ...,
    the first one active. *)
Definition ex_node (l : list StepContext) (allow guard : jsval) : MultiStepNode :=
  mkNode (Some (mkArray 0 (seq 0 (length l))))
         ((λ c, c.(node).(name)) <$> head l)
         allow guard false None ∅ true.

(** The world of that container, node 0, and its steps. *)
Definition ex_world (l : list StepContext) (allow guard : jsval) : World :=
  mkWorld (list_to_map (imap pair l)) {[ 0%nat := ex_node l allow guard ]} 1.

(** Steps [A; B; C] of which only [B] is invalid. *)
Definition ex_ABC_steps : list StepContext :=
  [ex_step "A" true JUndefined; ex_step "B" false JUndefined;
   ex_step "C" true JUndefined].

Definition ex_ABC (allow guard : jsval) : World := ex_world ex_ABC_steps allow guard.

(** Steps [A; B] of which only [A], the first, is invalid. *)
Definition ex_AB_steps : list StepContext :=
  [ex_step "A" false JUndefined; ex_step "B" true JUndefined].

(** Steps [A; B] where only [B] has a guard of its own. *)
Definition ex_guarded_target_steps : list StepContext :=
  [ex_step "A" true JUndefined; ex_step "B" true (JFun 7)].

(** Steps [A; B; A]: two steps share the name [A]; all are valid. *)
Definition ex_ABA_steps : list StepContext :=
  [ex_step "A" true JUndefined; ex_step "B" true JUndefined;
   ex_step "A" true JUndefined].

(** Steps [A; B] in container 0 and a step [C] mounted but not attached. *)
Definition ex_before_attach : World :=
  mkWorld (ex_ABC (JBool true) JUndefined).(contexts)
          {[ 0%nat := ex_node [ex_step "A" true JUndefined; ex_step "B" false JUndefined]
                              (JBool true) JUndefined ]}
          1.

(** The active step of container 0 after a navigation call, and how the
    call ended. *)
Definition active_after (r : (unit + exn) * World) : (unit + exn) * option string :=
  (r.1, r.2.(nodes) !! 0%nat ≫= props_activeStep).

(** Guards that all resolve to [undefined]. *)
Definition ex_guards : nat → BeforeStepChangeData → settled :=
  λ _ _, Fulfilled JUndefined.

(** *** Titles and server-side placeholders *)

(** Characters, for text in ASCII: the classes the two regular expressions
    and [trim] of [camel2title] tell apart, and [toUpperCase] on one
    character. *)
Definition is_upper (a : ascii) : bool :=
  (65 <=? nat_of_ascii a)%nat && (nat_of_ascii a <=? 90)%nat.

Definition is_lower (a : ascii) : bool :=
  (97 <=? nat_of_ascii a)%nat && (nat_of_ascii a <=? 122)%nat.

Definition is_digit (a : ascii) : bool :=
  (48 <=? nat_of_ascii a)%nat && (nat_of_ascii a <=? 57)%nat.

Definition is_whitespace (a : ascii) : bool :=
  ((9 <=? nat_of_ascii a)%nat && (nat_of_ascii a <=? 13)%nat)
  || (nat_of_ascii a =? 32)%nat.

Definition is_line_terminator (a : ascii) : bool :=
  (nat_of_ascii a =? 10)%nat || (nat_of_ascii a =? 13)%nat.

Definition toUpperCase (a : ascii) : ascii :=
  if is_lower a then ascii_of_nat (nat_of_ascii a - 32) else a.

(** [str.replace(/([A-Z])/g, (match) => ` ${match}`)] *)
Fixpoint space_capitals (s : string) : string :=
  match s with
  | EmptyString => EmptyString
  | String a s' =>
      if is_upper a then String " " (String a (space_capitals s'))
      else String a (space_capitals s')
  end.

(** [.replace(/^./, (match) => match.toUpperCase())]: the dot matches any
    character but a line terminator. *)
Definition upper_first (s : string) : string :=
  match s with
  | EmptyString => EmptyString
  | String a s' => if is_line_terminator a then s else String (toUpperCase a) s'
  end.

Fixpoint trimStart (s : string) : string :=
  match s with
  | EmptyString => EmptyString
  | String a s' => if is_whitespace a then trimStart s' else s
  end.

Fixpoint trimEnd (s : string) : string :=
  match s with
  | EmptyString => EmptyString
  | String a s' =>
      match trimEnd s' with
      | EmptyString => if is_whitespace a then EmptyString else String a EmptyString
      | r => String a r
      end
  end.

(** [.trim()] *)
Definition trim (s : string) : string := trimEnd (trimStart s).

(** [camel2title(str)]; [None] is [undefined], which like the empty string
    is returned as it is. *)
Definition camel2title (str : option string) : option string :=
  match str with
  | None => None
  | Some EmptyString => Some EmptyString
  | Some s => Some (trim (upper_first (space_capitals s)))
  end.

(** Letters and digits only. *)
Definition is_alnum (a : ascii) : bool := is_upper a || is_lower a || is_digit a.

Fixpoint all_alnum (s : string) : bool :=
  match s with
  | EmptyString => true
  | String a s' => is_alnum a && all_alnum s'
  end.

(** A tab's props, as far as the placeholders read them: [label] and
    [name], each [None] when missing. *)
Record TabProps : Type := mkTabProps {
  tab_label : option string;
  tab_name : option string;
}.

(** A rendered tab; [tab_props] is [None] when the vnode has no props. *)
Record Tab : Type := mkTab {
  tab_props : option TabProps;
}.

(** A placeholder step, the object [createSSRStepsFromTabs] makes. *)
Record PlaceholderStep : Type := mkPlaceholder {
  ph___isPlaceholder : bool;
  ph_stepName : option string;
  ph_isFirstStep : bool;
  ph_isLastStep : bool;
  ph_isActiveStep : bool;
  ph_node_name : option string;
}.

(** [label || camel2title(name)] on strings. *)
Definition stepName_of (label name : option string) : option string :=
  match label with
  | Some l => if String.eqb l "" then camel2title name else Some l
  | None => camel2title name
  end.

(** [createSSRStepsFromTabs(tabs)]; [None] is a missing [tabs]. *)
Definition createSSRStepsFromTabs (tabs : option (list Tab)) : list PlaceholderStep :=
  match tabs with
  | None => []
  | Some tabs =>
      imap (λ index tab,
              mkPlaceholder true
                (stepName_of (tab.(tab_props) ≫= tab_label) (tab.(tab_props) ≫= tab_name))
                (bool_decide (index = 0%nat))
                (bool_decide (Z.of_nat index = Z.of_nat (length tabs) - 1))
                (bool_decide (index = 0%nat))
                (tab.(tab_props) ≫= tab_name))
           tabs
  end.

(** *** What the permission check may touch *)

(** A step context and a node with what awaiting a guard writes blanked
    out: the step's [disabled], the node's [disabled] prop and its store. *)
Definition step_frame (c : StepContext) : StepContext := set_disabled false c.

Definition node_frame (n : MultiStepNode) : MultiStepNode :=
  set_props_disabled false (set_store ∅ n).

(** Two worlds that differ in those three places at most. *)
Definition same_but_pending (w w' : World) : Prop :=
  (∀ r, step_frame <$> w'.(contexts) !! r = step_frame <$> w.(contexts) !! r) ∧
  (∀ q, node_frame <$> w'.(nodes) !! q = node_frame <$> w.(nodes) !! q) ∧
  w'.(next_array) = w.(next_array).

(** The steps of a container that are not placeholders, in list order. *)
Definition real_steps (w : World) (n : MultiStepNode) : list nat :=
  from_option
    (λ arr, filter (λ step, is_placeholder w.(contexts) step = false) arr.(elems))
    [] n.(props_steps).

(** The active step of container [q], if the container exists. *)
Definition activeStep_of (w : World) (q : nat) : option (option string) :=
  props_activeStep <$> w.(nodes) !! q.

(** The container of [ex_ABC] once [setNodePositionProps] has run on its
    list. *)
Definition ex_positioned (allow guard : jsval) : World :=
  mkWorld (setNodePositionProps (Some (mkArray 0 [0; 1; 2]%nat))
             (ex_ABC allow guard).(contexts))
          (ex_ABC allow guard).(nodes) 1.

(** The container of [ex_ABC] in a browser, once a step's element is
    mounted: the list is sorted and every step is marked [ordered]. *)
Definition ex_sorted : World :=
  on_available true insertion_sort 0 None (ex_ABC (JBool true) JUndefined).

(** The context of step [r] there. *)
Definition ex_positioned_step (allow guard : jsval) (r : nat) : StepContext :=
  default (ex_step "" false JUndefined) ((ex_positioned allow guard).(contexts) !! r).

(** Three tabs: one with a label, one with a name only, one without props. *)
Definition ex_tabs : list Tab :=
  [mkTab (Some (mkTabProps (Some "Contact") (Some "contactInfo")));
   mkTab (Some (mkTabProps None (Some "stepTwo")));
   mkTab None].

End MultiStep.

(** ** Local-storage plugin *)

Module LocalStorage.

(** The options of [createLocalStoragePlugin]; a field is [None] when the
    option is not given. A transform hook is an async function of the
    payload, given by the way its promise settles. *)
Record LocalStorageOptions : Type := mkOptions {
  prefix : option string;
  key : option (string + Z);
  control : option string;
  maxAge : option Z;
  debounce : option Z;
  beforeSave : option (jsval → settled);
  beforeLoad : option (jsval → settled);
}.

(** A group node with the plugin installed, the browser around it and the
    variables the plugin closes over. *)
Record Instance : Type := mkInstance {
  (* the browser *)
  localStorage : gmap string string;
  now : Z;                                (* Date.now() *)
  saveTimeout : option (Z * jsval);       (* the pending timer: when due, its payload *)
  console_error : list exn;
  (* the node *)
  node_name : string;
  props_useLocalStorage : jsval;
  props_disabled : bool;
  value : jsval;
  control_value : option jsval;           (* node.at(control).value; None: no such node *)
  (* the closure *)
  cachedLocalStorageData : option string; (* None: null *)
  useLocalStorage : jsval;
}.

Definition with_localStorage (m : gmap string string) (st : Instance) : Instance :=
  mkInstance m st.(now) st.(saveTimeout) st.(console_error) st.(node_name)
             st.(props_useLocalStorage) st.(props_disabled) st.(value)
             st.(control_value) st.(cachedLocalStorageData) st.(useLocalStorage).

Definition with_now (t : Z) (st : Instance) : Instance :=
  mkInstance st.(localStorage) t st.(saveTimeout) st.(console_error) st.(node_name)
             st.(props_useLocalStorage) st.(props_disabled) st.(value)
             st.(control_value) st.(cachedLocalStorageData) st.(useLocalStorage).

Definition with_saveTimeout (t : option (Z * jsval)) (st : Instance) : Instance :=
  mkInstance st.(localStorage) st.(now) t st.(console_error) st.(node_name)
             st.(props_useLocalStorage) st.(props_disabled) st.(value)
             st.(control_value) st.(cachedLocalStorageData) st.(useLocalStorage).

Definition log_error (e : exn) (st : Instance) : Instance :=
  mkInstance st.(localStorage) st.(now) st.(saveTimeout) (st.(console_error) ++ [e])
             st.(node_name) st.(props_useLocalStorage) st.(props_disabled) st.(value)
             st.(control_value) st.(cachedLocalStorageData) st.(useLocalStorage).

Definition with_props_useLocalStorage (v : jsval) (st : Instance) : Instance :=
  mkInstance st.(localStorage) st.(now) st.(saveTimeout) st.(console_error)
             st.(node_name) v st.(props_disabled) st.(value)
             st.(control_value) st.(cachedLocalStorageData) st.(useLocalStorage).

Definition with_props_disabled (b : bool) (st : Instance) : Instance :=
  mkInstance st.(localStorage) st.(now) st.(saveTimeout) st.(console_error)
             st.(node_name) st.(props_useLocalStorage) b st.(value)
             st.(control_value) st.(cachedLocalStorageData) st.(useLocalStorage).

(** [node.input(v, false)]: the node takes the value. *)
Definition node_input (v : jsval) (st : Instance) : Instance :=
  mkInstance st.(localStorage) st.(now) st.(saveTimeout) st.(console_error)
             st.(node_name) st.(props_useLocalStorage) st.(props_disabled) v
             st.(control_value) st.(cachedLocalStorageData) st.(useLocalStorage).

Definition with_control_value (v : option jsval) (st : Instance) : Instance :=
  mkInstance st.(localStorage) st.(now) st.(saveTimeout) st.(console_error)
             st.(node_name) st.(props_useLocalStorage) st.(props_disabled) st.(value)
             v st.(cachedLocalStorageData) st.(useLocalStorage).

Definition with_cache (c : option string) (st : Instance) : Instance :=
  mkInstance st.(localStorage) st.(now) st.(saveTimeout) st.(console_error)
             st.(node_name) st.(props_useLocalStorage) st.(props_disabled) st.(value)
             st.(control_value) c st.(useLocalStorage).

Definition with_useLocalStorage (v : jsval) (st : Instance) : Instance :=
  mkInstance st.(localStorage) st.(now) st.(saveTimeout) st.(console_error)
             st.(node_name) st.(props_useLocalStorage) st.(props_disabled) st.(value)
             st.(control_value) st.(cachedLocalStorageData) v.

(** Modelled from the spec: [undefine] of @formkit/utils is not under
    src/. Persistence is enabled "per a boolean prop": the prop is on when
    it is present and is neither [false] nor the string "false"; the
    helper then gives [true], and [undefined] otherwise. *)
Definition undefine (v : jsval) : jsval :=
  match v with
  | JUndefined | JBool false => JUndefined
  | JStr s => if String.eqb s "false" then JUndefined else JBool true
  | _ => JBool true
  end.

(** [v === true] *)
Definition is_true (v : jsval) : bool :=
  match v with
  | JBool true => true
  | _ => false
  end.

(** [shouldUseLocalStorage(controlNode)]; the argument is the value of the
    control node passed, [None] when [undefined] is passed. *)
Definition shouldUseLocalStorage (controlNode : option jsval) (st : Instance) : jsval :=
  let controlFieldValue :=
    match controlNode with
    | Some v => is_true v
    | None => true
    end in
  js_and (undefine st.(props_useLocalStorage)) (JBool controlFieldValue).

(** [typeof debounce === 'number' ? debounce : 200], [prefix ?? 'formkit']
    and [maxAge ?? 3600000]. *)
Definition the_debounce (o : LocalStorageOptions) : Z := default 200 o.(debounce).
Definition the_prefix (o : LocalStorageOptions) : string := default "formkit" o.(prefix).
Definition the_maxAge (o : LocalStorageOptions) : Z := default 3600000 o.(maxAge).

(** [localStorageOptions.key ? `-${key}` : ''] *)
Definition the_key (o : LocalStorageOptions) : string :=
  match o.(key) with
  | Some (inl s) => if String.eqb s "" then "" else "-" +:+ s
  | Some (inr n) => if decide (n = 0) then "" else "-" +:+ pretty n
  | None => ""
  end.

(** [`${prefix}${key}-${node.name}`] *)
Definition storageKey (o : LocalStorageOptions) (st : Instance) : string :=
  the_prefix o +:+ the_key o +:+ "-" +:+ st.(node_name).

Definition removeItem (k : string) (st : Instance) : Instance :=
  with_localStorage (delete k st.(localStorage)) st.

Definition setItem (k v : string) (st : Instance) : Instance :=
  with_localStorage (<[k := v]> st.(localStorage)) st.

(** The end of an async function of the plugin. [Unmodelled]: the stored
    [maxAge] is a string, an array or an object, whose conversion to a
    number is outside the fragment of values. *)
Inductive outcome : Type :=
| Done (st : Instance)
| Thrown (e : exn) (st : Instance)
| Unmodelled.

(** [v > Date.now()] for a stored [maxAge]. *)
Definition js_gt (v : jsval) (n : Z) : option bool :=
  match v with
  | JNum m => Some (bool_decide (n < m))
  | JUndefined | JNaN | JFun _ => Some false
  | JNull => Some (bool_decide (n < 0))
  | JBool b => Some (bool_decide (n < (if b then 1 else 0)))
  | JStr _ | JArr _ | JObj _ => None
  end.

Section Plugin.

(** The engine's [JSON.stringify] and [JSON.parse] ([None]: a SyntaxError). *)
Variable JSON_stringify : jsval → string.
Variable JSON_parse : string → option jsval.

Variable localStorageOptions : LocalStorageOptions.

(** What [loadValue.data] reads after the [beforeLoad] block. The hook is
    called with [loadValue.data]; its result is assigned when [loadValue]
    is an object or an array. Reading [data] of [null], assigning to a
    primitive (the bundle is strict) and a rejected hook all end in the
    [catch], which logs the error. *)
Definition loaded_data (loadValue : jsval) (st : Instance) : jsval * Instance :=
  match localStorageOptions.(beforeLoad) with
  | Some hook =>
      let st1 := with_props_disabled true st in
      let '(data, st2) :=
        match loadValue with
        | JNull | JUndefined => (JUndefined, log_error TypeError st1)
        | _ =>
            match hook (get_prop loadValue "data") with
            | Fulfilled v =>
                match loadValue with
                | JObj _ | JArr _ | JFun _ => (v, st1)
                | _ => (get_prop loadValue "data", log_error TypeError st1)
                end
            | Rejected e => (get_prop loadValue "data", log_error (Uncaught e) st1)
            end
        end in
      (data, with_props_disabled false st2)
  | None => (get_prop loadValue "data", st)
  end.

(** [loadValue(forceValue)] *)
Definition loadValue (forceValue : option string) (st : Instance) : outcome :=
  let value :=
    match forceValue with
    | Some s => if String.eqb s "" then st.(localStorage) !! storageKey localStorageOptions st
                else Some s
    | None => st.(localStorage) !! storageKey localStorageOptions st
    end in
  match value with
  | None => Done st
  | Some s =>
      if String.eqb s "" then Done st
      else
        match JSON_parse s with
        | None => Thrown SyntaxError st
        | Some loadValue =>
            let '(data, st1) := loaded_data loadValue st in
            if negb (truthy loadValue) then Done st1
            else
              match typeof data with
              | TObject =>
                  match js_gt (get_prop loadValue "maxAge") st1.(now) with
                  | Some true => Done (node_input data st1)
                  | Some false => Done (removeItem (storageKey localStorageOptions st1) st1)
                  | None => Unmodelled
                  end
              | _ => Done st1
              end
        end
  end.

(** [saveValue(payload)] *)
Definition saveValue (payload : jsval) (st : Instance) : Instance :=
  let '(savePayload, st1) :=
    match localStorageOptions.(beforeSave) with
    | Some hook =>
        match hook payload with
        | Fulfilled v => (v, st)
        | Rejected e => (payload, log_error (Uncaught e) st)
        end
    | None => (payload, st)
    end in
  if truthy savePayload
  then setItem (storageKey localStorageOptions st1)
               (JSON_stringify
                  (JObj [("maxAge", JNum (st1.(now) + the_maxAge localStorageOptions));
                         ("data", savePayload)]))
               st1
  else st1.

(** Whether the [created] handler found a control node and listens to its
    commits. *)
Definition control_listener (st : Instance) : bool :=
  match localStorageOptions.(control), st.(control_value) with
  | Some _, Some _ => true
  | _, _ => false
  end.

(** The handler of [node.on('created')]. The block that looks the control
    node up declares its own [controlNode]; the one passed to
    [shouldUseLocalStorage] here is the outer variable, still [undefined]. *)
Definition created (st : Instance) : outcome :=
  loadValue None (with_useLocalStorage (shouldUseLocalStorage None st) st).

(** The handler of [node.on('commit')]: one timer, restarted. *)
Definition on_commit (payload : jsval) (st : Instance) : Instance :=
  if truthy st.(useLocalStorage)
  then with_saveTimeout
         (Some (st.(now) + Z.max 0 (the_debounce localStorageOptions), payload)) st
  else st.

(** Time passes to [t]; a timer that is due runs [saveValue]. *)
Definition tick (t : Z) (st : Instance) : Instance :=
  match st.(saveTimeout) with
  | Some (due, payload) =>
      if decide (due ≤ t)
      then saveValue payload (with_saveTimeout None (with_now t st))
      else with_now t st
  | None => with_now t st
  end.

(** The handler of [controlNode.on('commit')], the control node's value
    now being [v]. *)
Definition on_control_commit (v : jsval) (st : Instance) : Instance :=
  if control_listener st
  then
    let st1 := with_control_value (Some v) st in
    let st2 := with_useLocalStorage (shouldUseLocalStorage (Some v) st1) st1 in
    if truthy st2.(useLocalStorage) then st2
    else removeItem (storageKey localStorageOptions st2) st2
  else st.

(** [node.props.useLocalStorage = v] and the handler of
    [node.on('prop:useLocalStorage')], which again passes the outer
    [controlNode]. *)
Definition on_prop_useLocalStorage (v : jsval) (st : Instance) : Instance :=
  let st1 := with_props_useLocalStorage v st in
  let st2 := with_useLocalStorage (shouldUseLocalStorage None st1) st1 in
  if truthy st2.(useLocalStorage) then st2
  else removeItem (storageKey localStorageOptions st2) st2.

(** The submit hook. *)
Definition on_submit (st : Instance) : Instance :=
  let k := storageKey localStorageOptions st in
  removeItem k (with_cache (st.(localStorage) !! k) st).

(** [node.restoreCache()] *)
Definition restoreCache (st : Instance) : outcome :=
  match st.(cachedLocalStorageData) with
  | Some s => if String.eqb s "" then Done st else loadValue (Some s) st
  | None => Done st
  end.

End Plugin.

(** The entry [saveValue] writes for [data] at time [t]. *)
Definition entry_of (o : LocalStorageOptions) (t : Z) (data : jsval) : jsval :=
  JObj [("maxAge", JNum (t + the_maxAge o)); ("data", data)].

(** The engine's JSON functions give [v] back: it is written as a
    non-empty text that parses to [v] again. *)
Definition survives_JSON (JSON_stringify : jsval → string)
    (JSON_parse : string → option jsval) (v : jsval) : Prop :=
  JSON_stringify v ≠ "" ∧ JSON_parse (JSON_stringify v) = Some v.

(** *** Events of an instance *)

(** What can happen to an instance: its [created] handler runs, the form
    commits a value, time passes, the control field commits, the
    [useLocalStorage] prop is set, the form is submitted, and
    [node.restoreCache()] is called. *)
Inductive event : Type :=
| Created
| Commit (payload : jsval)
| Tick (t : Z)
| ControlCommit (v : jsval)
| PropUseLocalStorage (v : jsval)
| Submit
| RestoreCache.

Section Events.

Variable JSON_stringify : jsval → string.
Variable JSON_parse : string → option jsval.
Variable localStorageOptions : LocalStorageOptions.

Definition handle (e : event) (st : Instance) : outcome :=
  match e with
  | Created => created JSON_parse localStorageOptions st
  | Commit payload => Done (on_commit localStorageOptions payload st)
  | Tick t => Done (tick JSON_stringify localStorageOptions t st)
  | ControlCommit v => Done (on_control_commit localStorageOptions v st)
  | PropUseLocalStorage v => Done (on_prop_useLocalStorage localStorageOptions v st)
  | Submit => Done (on_submit localStorageOptions st)
  | RestoreCache => restoreCache JSON_parse localStorageOptions st
  end.

(** A sequence of events; a handler that throws leaves the instance in
    the state it had reached, and the next event finds it there. *)
Fixpoint handle_all (es : list event) (st : Instance) : option Instance :=
  match es with
  | [] => Some st
  | e :: es' =>
      match handle e st with
      | Done st' | Thrown _ st' => handle_all es' st'
      | Unmodelled => None
      end
  end.

End Events.

(** *** Example form *)

(** A form named [contact] whose persistence is gated by the field
    [remember]; no hooks, default prefix, age and debounce. *)
Definition ex_options : LocalStorageOptions :=
  mkOptions None None (Some "remember") None None None None.

(** At time 1000: nothing stored, the [useLocalStorage] prop on, and the
    control field [remember] holding [false]. *)
Definition ex_instance : Instance :=
  mkInstance ∅ 1000 None [] "contact" (JBool true) false (JObj [])
             (Some (JBool false)) (Some "") JUndefined.

Definition ex_value : jsval := JObj [("email", JStr "ada@example.org")].

(** An engine that knows one document: the entry for [ex_value] saved at
    time 1000. *)
Definition ex_JSON_stringify (v : jsval) : string := "entry-1000".

Definition ex_JSON_parse (s : string) : option jsval :=
  if String.eqb s "entry-1000" then Some (entry_of ex_options 1000 ex_value) else None.

(** The form with persistence on, and the form with its entry in the store
    beside the entry of another application. *)
Definition ex_saving : Instance := with_useLocalStorage (JBool true) ex_instance.

Definition ex_stored : Instance :=
  with_localStorage {[ "formkit-contact" := "entry-1000"; "other-app" := "kept" ]}
                    ex_instance.

(** Options with the two hooks only. *)
Definition ex_hooks (save load : option (jsval → settled)) : LocalStorageOptions :=
  mkOptions None None None None None save load.

(** A hook that rejects, and one that strips the data to an empty object. *)
Definition ex_rejecting_hook : jsval → settled := λ _, Rejected (JStr "offline").

Definition ex_stripping_hook : jsval → settled := λ _, Fulfilled (JObj []).

(** An engine that parses every text to an entry whose data is a number. *)
Definition ex_JSON_parse_number (s : string) : option jsval :=
  Some (JObj [("maxAge", JNum 5000); ("data", JNum 3)]).

End LocalStorage.

(** ** Auto-animate plugin: the shared observer *)

Module AutoAnimate.

Section Observer.

(** [AutoAnimateOptions], and the empty object [{}]. *)
Variable Options : Type.
Variable empty_options : Options.

(** The document as the observer reads it: whether [getElementById(id)]
    finds an element, and the elements that carry the attribute
    [data-auto-animate], each with the attribute's value. *)
Record Document : Type := mkDocument {
  mounted : string → bool;
  targets : list (nat * string);
}.

(** The module's variables: the map [pendingIds] in insertion order (the
    options are [None] when the plugin was given none), the map
    [optionOverrides], whether [observer] is set, the one pending timer
    with the options its callback closes over, and the calls of
    [autoAnimate] made so far. *)
Record State : Type := mkState {
  pendingIds : list (string * option Options);
  optionOverrides : gmap string Options;
  observer : bool;
  observerTimeout : option (option Options);
  animated : list (nat * Options);
}.

(** [pendingIds.forEach((options, id) => ...)]: an id whose element is
    found is deleted from the map, the pending timer is cleared and a new
    one is set with that id's options. *)
Fixpoint observe_each (doc : Document) (l : list (string * option Options))
    (timeout : option (option Options))
    : list (string * option Options) * option (option Options) :=
  match l with
  | [] => ([], timeout)
  | (id, options) :: l' =>
      if doc.(mounted) id
      then observe_each doc l' (Some options)
      else let '(rest, timeout') := observe_each doc l' timeout in
           ((id, options) :: rest, timeout')
  end.

(** [observeIds()] *)
Definition observeIds (doc : Document) (st : State) : State :=
  let '(pending, timeout) := observe_each doc st.(pendingIds) st.(observerTimeout) in
  mkState pending st.(optionOverrides) st.(observer) timeout st.(animated).

(** The callback of the MutationObserver. *)
Definition on_mutation (doc : Document) (st : State) : State :=
  let st1 := observeIds doc st in
  match st1.(pendingIds) with
  | [] =>
      if st1.(observer)
      then mkState st1.(pendingIds) st1.(optionOverrides) false
                   st1.(observerTimeout) st1.(animated)
      else st1
  | _ => st1
  end.

(** [createObserver()] *)
Definition createObserver (doc : Document) (st : State) : State :=
  let st1 := observeIds doc st in
  mkState st1.(pendingIds) st1.(optionOverrides) true
          st1.(observerTimeout) st1.(animated).

(** The timer's callback: every marked element is animated with
    [overrideOptions || options || {}]. *)
Definition animate_options (st : State) (options : option Options)
    (optionsId : string) : Options :=
  let overrideOptions :=
    if String.eqb optionsId "" then None else st.(optionOverrides) !! optionsId in
  match overrideOptions with
  | Some ov => ov
  | None => default empty_options options
  end.

Definition on_timeout (doc : Document) (st : State) : State :=
  match st.(observerTimeout) with
  | Some options =>
      mkState st.(pendingIds) st.(optionOverrides) st.(observer) None
              (st.(animated) ++
               ((λ t, (t.1, animate_options st options t.2)) <$> doc.(targets)))%list
  | None => st
  end.

End Observer.

Arguments mkState {Options}.
Arguments pendingIds {Options}.
Arguments optionOverrides {Options}.
Arguments observer {Options}.
Arguments observerTimeout {Options}.
Arguments animated {Options}.
Arguments observe_each {Options}.
Arguments observeIds {Options}.
Arguments on_mutation {Options}.
Arguments createObserver {Options}.
Arguments animate_options {Options}.
Arguments on_timeout {Options}.

(** The inputs [name] and [email] are awaited, with a duration as options
    for the first and no options for the second; [name] is mounted, with
    two marked sections of which the second has an override. *)
Definition ex_document : Document :=
  mkDocument (λ id, String.eqb id "name") [(0%nat, "true"); (1%nat, "name-0")].

Definition ex_state : State Z :=
  mkState [("name", Some 250); ("email", None)] {[ "name-0" := 100 ]} true None [].

End AutoAnimate.

(** * Properties of the multi-step plugin *)

Module MultiStepTheory.
Import MultiStep.

(** ** Arrays *)

Lemma indexOf_from_found (l : list nat) (x : nat) (k : Z) :
  indexOf_from l x k ≠ -1 →
  0 ≤ k →
  k ≤ indexOf_from l x k < k + Z.of_nat (length l) ∧
  l !! Z.to_nat (indexOf_from l x k - k) = Some x.
Proof.
  revert k. induction l as [|y l IH]; intros k Hfound Hk; simpl in *; [done|].
  destruct (decide (y = x)) as [->|Hyx].
  - replace (k - k) with 0 by lia. split; [lia | done].
  - destruct (IH (k + 1) Hfound) as [Hb Hl]; [lia|].
    split; [lia|].
    replace (Z.to_nat (indexOf_from l x (k + 1) - k))
      with (S (Z.to_nat (indexOf_from l x (k + 1) - (k + 1)))) by lia.
    done.
Qed.

Lemma indexOf_from_range (l : list nat) (x : nat) (k : Z) :
  0 ≤ k → indexOf_from l x k = -1 ∨ k ≤ indexOf_from l x k < k + Z.of_nat (length l).
Proof.
  intros Hk. destruct (decide (indexOf_from l x k = -1)) as [|Hne]; [by left|].
  right. by apply indexOf_from_found.
Qed.

Lemma indexOf_lt_length (l : list nat) (x : nat) :
  indexOf l x < Z.of_nat (length l).
Proof.
  unfold indexOf. destruct (indexOf_from_range l x 0) as [->|?]; lia.
Qed.

Lemma indexOf_lookup (l : list nat) (x : nat) :
  0 ≤ indexOf l x → at_index l (indexOf l x) = Some x.
Proof.
  intros H. unfold at_index, indexOf in *.
  destruct (indexOf_from_found l x 0) as [_ Hl]; [lia | lia |].
  rewrite Z.sub_0_r in Hl. by rewrite decide_False by lia.
Qed.

Lemma at_index_Some (l : list nat) (i : Z) :
  0 ≤ i < Z.of_nat (length l) → is_Some (at_index l i).
Proof.
  intros H. unfold at_index. rewrite decide_False by lia.
  apply lookup_lt_is_Some. lia.
Qed.

(** ** The completion rule *)

Lemma intermediateSteps_allowIncomplete h l allow ci i n :
  truthy allow = true → intermediateSteps h l allow ci i n = inl true.
Proof.
  intros Ha. revert i. induction n as [|n IH]; intros i; simpl; [done|].
  by rewrite Ha.
Qed.

(** With the policy off, the loop answers for the steps at the indices
    [ci + i], ..., [ci + i + n - 1]: it vetoes exactly when one of them is
    not valid. *)
Lemma intermediateSteps_strict h l allow ci i n :
  truthy allow = false →
  (∀ j, i ≤ j < i + Z.of_nat n →
        ∃ r, at_index l (ci + j) = Some r ∧ is_Some (h !! r)) →
  ∃ b, intermediateSteps h l allow ci i n = inl b ∧
       (b = false ↔
        ∃ j r, i ≤ j < i + Z.of_nat n ∧ at_index l (ci + j) = Some r ∧
               step_valid h r = false).
Proof.
  intros Ha. revert i. induction n as [|n IH]; intros i Hin; simpl.
  - exists true. split; [done|]. split; [done|]. intros (j & r & Hj & _). lia.
  - rewrite Ha.
    destruct (Hin i) as (r & Hr & [c Hc]); [lia|].
    rewrite Hr. simpl. rewrite Hc.
    destruct (from_option valid false (state c)) eqn:Hv.
    + destruct (IH (i + 1)) as (b & Hb & Hiff).
      { intros j Hj. apply Hin. lia. }
      exists b. split; [done|]. rewrite Hiff. split.
      * intros (j & r' & Hj & Hr' & Hv'). exists j, r'. split; [lia | done].
      * intros (j & r' & Hj & Hr' & Hv').
        destruct (decide (j = i)) as [->|Hji].
        -- rewrite Hr in Hr'. injection Hr' as <-.
           unfold step_valid in Hv'. rewrite Hc in Hv'. simpl in Hv'. congruence.
        -- exists j, r'. split; [lia | done].
    + exists false. split; [done|]. split; [|done]. intros _.
      exists i, r. split; [lia|]. split; [done|].
      unfold step_valid. by rewrite Hc.
Qed.

Lemma intermediateSteps_ext h1 h2 l allow ci i n :
  (∀ r, state <$> h1 !! r = state <$> h2 !! r) →
  intermediateSteps h1 l allow ci i n = intermediateSteps h2 l allow ci i n.
Proof.
  intros Hst. revert i. induction n as [|n IH]; intros i; simpl; [done|].
  destruct (truthy allow); [done|].
  destruct (at_index l (ci + i)) as [r|]; simpl; [|done].
  specialize (Hst r).
  destruct (h1 !! r) as [c1|], (h2 !! r) as [c2|]; simpl in *; try done.
  injection Hst as ->. by rewrite IH.
Qed.

(** ** The permission check *)

Section Navigation.

Context (w : World) (cur tgt p : nat) (c : StepContext) (ps : StepProps)
        (n : MultiStepNode) (arr : JSArray).

Hypothesis Hcur : w.(contexts) !! cur = Some c.
Hypothesis Hparent : c.(node).(parent) = Some p.
Hypothesis Hprops : c.(node).(props) = Some ps.
Hypothesis Hnode : w.(nodes) !! p = Some n.
Hypothesis Hsteps : n.(props_steps) = Some arr.
Hypothesis Hdistinct : cur ≠ tgt.

Lemma parentNode_of_cur : parentNode_of w c = Some (p, n).
Proof. unfold parentNode_of. rewrite Hparent. simpl. by rewrite Hnode. Qed.

(** With a guard: the check suspends on it, once the pending state is set. *)
Lemma isTargetStepAllowed_guard g :
  js_or ps.(beforeStepChange) n.(props_beforeStepChange) = JFun g →
  isTargetStepAllowed (Some cur) tgt w =
  Await g
    (mkData cur tgt (JNum (indexOf arr.(elems) tgt - indexOf arr.(elems) cur)))
    (guard_pending (Some (p, n)) cur w)
    (λ s,
       match s with
       | Rejected e => Throw (Uncaught e) (guard_pending (Some (p, n)) cur w)
       | Fulfilled result =>
           let w2 := guard_resolved (Some (p, n)) cur
                                    (guard_pending (Some (p, n)) cur w) in
           if is_false result then Return false w2
           else settle (completionRule w2 (Some (p, n)) n.(props_allowIncomplete)
                          (Some (indexOf arr.(elems) cur))
                          (Some (indexOf arr.(elems) tgt))) w2
       end).
Proof.
  intros Hg. unfold isTargetStepAllowed.
  rewrite decide_False by done. rewrite Hcur, parentNode_of_cur. simpl.
  rewrite Hsteps, Hprops. simpl. by rewrite Hg.
Qed.

(** Without one: the completion rule decides at once. *)
Lemma isTargetStepAllowed_no_guard :
  (∀ g, js_or ps.(beforeStepChange) n.(props_beforeStepChange) ≠ JFun g) →
  isTargetStepAllowed (Some cur) tgt w =
  settle (completionRule w (Some (p, n)) n.(props_allowIncomplete)
            (Some (indexOf arr.(elems) cur)) (Some (indexOf arr.(elems) tgt))) w.
Proof.
  intros Hg. unfold isTargetStepAllowed.
  rewrite decide_False by done. rewrite Hcur, parentNode_of_cur. simpl.
  rewrite Hsteps, Hprops. simpl.
  destruct (js_or _ _) eqn:E; try done. by destruct (Hg f).
Qed.

(** Setting and clearing the pending state touches neither the step list
    nor any step's validity, so the rule reads the same after the guard. *)
Lemma completionRule_resolved allow ci ti :
  completionRule (guard_resolved (Some (p, n)) cur (guard_pending (Some (p, n)) cur w))
                 (Some (p, n)) allow ci ti =
  completionRule w (Some (p, n)) allow ci ti.
Proof.
  unfold completionRule. destruct ci as [ci|], ti as [ti|]; try done.
  destruct (decide (ti < ci)); [done|]. simpl.
  rewrite !lookup_alter_eq, Hnode. simpl. rewrite Hsteps.
  apply intermediateSteps_ext. intros r.
  destruct (decide (r = cur)) as [->|Hr].
  - rewrite !lookup_alter_eq. by destruct (contexts w !! cur).
  - by rewrite !lookup_alter_ne.
Qed.

Lemma run_settle (guards : nat → BeforeStepChangeData → settled) r w' :
  (run guards (settle r w')).1 = r.
Proof. by destruct r. Qed.

Lemma run_settle_world (guards : nat → BeforeStepChangeData → settled) r w' :
  (run guards (settle r w')).2 = w'.
Proof. by destruct r. Qed.

Lemma guard_calls_settle (guards : nat → BeforeStepChangeData → settled) r w' :
  guard_calls guards (settle r w') = [].
Proof. by destruct r. Qed.


(** The forward rule: with both steps in the list and the current one
    before the target, the rule vetoes exactly when the policy is off and a
    step from the current one up to, but not including, the target is not
    valid. *)
Lemma completionRule_forward :
  0 ≤ indexOf arr.(elems) cur < indexOf arr.(elems) tgt →
  (∀ r, r ∈ arr.(elems) → is_Some (w.(contexts) !! r)) →
  ∃ b, completionRule w (Some (p, n)) n.(props_allowIncomplete)
         (Some (indexOf arr.(elems) cur)) (Some (indexOf arr.(elems) tgt)) = inl b ∧
       (b = false ↔ forward_blocked w n arr (indexOf arr.(elems) cur)
                                    (indexOf arr.(elems) tgt)).
Proof.
  intros Hfw Halloc. unfold completionRule, forward_blocked.
  rewrite decide_False by lia. rewrite Hnode. simpl. rewrite Hsteps.
  set (ci := indexOf (elems arr) cur) in *. set (ti := indexOf (elems arr) tgt) in *.
  destruct (truthy (props_allowIncomplete n)) eqn:Ha.
  - rewrite intermediateSteps_allowIncomplete by done.
    exists true. split; [done|]. split; [done | by intros [? _]].
  - destruct (intermediateSteps_strict (contexts w) (elems arr)
                (props_allowIncomplete n) ci 0 (Z.to_nat (ti - ci)) Ha)
      as (b & Hb & Hiff).
    { intros j Hj.
      destruct (at_index_Some (elems arr) (ci + j)) as [r Hr].
      { pose proof (indexOf_lt_length (elems arr) tgt). lia. }
      exists r. split; [done|]. apply Halloc.
      unfold at_index in Hr. destruct (decide (ci + j < 0)); [done|].
      by eapply list_elem_of_lookup_2. }
    exists b. split; [done|]. rewrite Hiff. split.
    + intros (j & r & Hj & Hr & Hv). split; [done|].
      exists (ci + j), r. split; [lia | done].
    + intros (_ & j & r & Hj & Hr & Hv).
      exists (j - ci), r. replace (ci + (j - ci)) with j by lia.
      split; [lia | done].
Qed.

(** The backward rule. *)
Lemma completionRule_backward allow :
  indexOf arr.(elems) tgt < indexOf arr.(elems) cur →
  completionRule w (Some (p, n)) allow
    (Some (indexOf arr.(elems) cur)) (Some (indexOf arr.(elems) tgt)) = inl true.
Proof. intros Hbw. unfold completionRule. by rewrite decide_True. Qed.

(** C1 (as amended): a forward move between two steps of the list, with
    no guard or with guards that resolve to something other than [false],
    is vetoed if and only if the allowIncomplete policy is off and some
    step from the current one (included) up to the target (excluded) is
    invalid. *)
Theorem C1_forward_veto_iff (guards : nat → BeforeStepChangeData → settled) :
  0 ≤ indexOf arr.(elems) cur < indexOf arr.(elems) tgt →
  (∀ r, r ∈ arr.(elems) → is_Some (w.(contexts) !! r)) →
  (∀ g d, resolves_not_false (guards g d) = true) →
  ∃ b, (run guards (isTargetStepAllowed (Some cur) tgt w)).1 = inl b ∧
       (b = false ↔ forward_blocked w n arr (indexOf arr.(elems) cur)
                                    (indexOf arr.(elems) tgt)).
Proof.
  intros Hfw Halloc Hguards.
  destruct (completionRule_forward Hfw Halloc) as (b & Hb & Hiff).
  exists b. split; [|done].
  destruct (js_or ps.(beforeStepChange) n.(props_beforeStepChange)) eqn:Hg;
    try (rewrite isTargetStepAllowed_no_guard by (intros g'; congruence);
         by rewrite run_settle).
  rewrite (isTargetStepAllowed_guard f Hg). cbn [run guard_calls pending_worlds].
  specialize (Hguards f (mkData cur tgt
    (JNum (indexOf (elems arr) tgt - indexOf (elems arr) cur)))).
  destruct (guards f _) as [v|e]; simpl in Hguards; [|done].
  apply negb_true_iff in Hguards. rewrite Hguards.
  by rewrite run_settle, completionRule_resolved.
Qed.

(** C2: a backward move is allowed whatever the validity of the steps and
    whatever the policy; the check answers [false] only when a registered
    guard resolved to exactly [false]. *)
Theorem C2_backward_always_allowed (guards : nat → BeforeStepChangeData → settled) :
  indexOf arr.(elems) tgt < indexOf arr.(elems) cur →
  let m := isTargetStepAllowed (Some cur) tgt w in
  let d := mkData cur tgt (JNum (indexOf arr.(elems) tgt - indexOf arr.(elems) cur)) in
  let guard := js_or ps.(beforeStepChange) n.(props_beforeStepChange) in
  ((∀ g, guard ≠ JFun g) → (run guards m).1 = inl true) ∧
  (∀ g v, guard = JFun g → guards g d = Fulfilled v → v ≠ JBool false →
          (run guards m).1 = inl true) ∧
  ((run guards m).1 = inl false ↔
   ∃ g, guard = JFun g ∧ guards g d = Fulfilled (JBool false)).
Proof.
  intros Hbw m d guard. subst m d guard.
  destruct (js_or ps.(beforeStepChange) n.(props_beforeStepChange)) eqn:Hg;
    try (rewrite isTargetStepAllowed_no_guard by (intros g'; congruence);
         rewrite run_settle, completionRule_backward by done;
         split; [done|]; split; [intros ???; congruence|];
         split; [done | intros (? & ? & _); congruence]).
  rewrite (isTargetStepAllowed_guard f Hg). cbn [run guard_calls pending_worlds].
  split; [intros H; by destruct (H f)|]. split.
  - intros g v [= <-] Hv Hnf. rewrite Hv.
    destruct (is_false v) eqn:Hf.
    { destruct v as [| |[]| | | | | |]; done. }
    by rewrite run_settle, completionRule_resolved, completionRule_backward.
  - destruct (guards f _) as [v|e] eqn:Hv.
    + destruct (is_false v) eqn:Hf.
      * simpl. split; [|done]. intros _. exists f. split; [done|].
        by destruct v as [| |[]| | | | | |].
      * rewrite run_settle, completionRule_resolved, completionRule_backward by done.
        split; [done|]. intros (g & [= <-] & Hv'). rewrite Hv in Hv'.
        injection Hv' as ->. done.
    + simpl. split; [done|]. intros (g & [= <-] & Hv'). congruence.
Qed.

(** C5 (as amended): between two distinct steps, the guard registered on
    the current step's own props, or else on the container, is invoked
    exactly once, with the current step, the target step and
    [delta = indexOf(target) - indexOf(current)]; a step's own guard takes
    precedence over the container's; and no guard is invoked when current
    and target are the same step. *)
Theorem C5_guard_invoked_once (guards : nat → BeforeStepChangeData → settled) g :
  js_or ps.(beforeStepChange) n.(props_beforeStepChange) = JFun g →
  guard_calls guards (isTargetStepAllowed (Some cur) tgt w) =
    [(g, mkData cur tgt (JNum (indexOf arr.(elems) tgt - indexOf arr.(elems) cur)))] ∧
  (∀ g', ps.(beforeStepChange) = JFun g' → g = g') ∧
  guard_calls guards (isTargetStepAllowed (Some cur) cur w) = [].
Proof.
  intros Hg. split; [|split].
  - rewrite (isTargetStepAllowed_guard g Hg). cbn [run guard_calls pending_worlds].
    destruct (guards g _) as [v|e]; [|done].
    destruct (is_false v); [done|].
    by rewrite guard_calls_settle.
  - intros g' Hown. rewrite Hown in Hg. unfold js_or in Hg. simpl in Hg. congruence.
  - unfold isTargetStepAllowed. by rewrite decide_True.
Qed.

(** C6 (as amended): a registered guard vetoes the move, the completion
    rule not being consulted, if and only if it resolves to exactly the
    boolean [false]; when it resolves to anything else the completion rule
    decides; when it rejects or throws the check itself fails with that
    error and gives no answer. *)
Theorem C6_guard_result (guards : nat → BeforeStepChangeData → settled) g :
  js_or ps.(beforeStepChange) n.(props_beforeStepChange) = JFun g →
  let m := isTargetStepAllowed (Some cur) tgt w in
  let d := mkData cur tgt (JNum (indexOf arr.(elems) tgt - indexOf arr.(elems) cur)) in
  (guards g d = Fulfilled (JBool false) → (run guards m).1 = inl false) ∧
  (∀ v, guards g d = Fulfilled v → v ≠ JBool false →
        (run guards m).1 =
        completionRule w (Some (p, n)) n.(props_allowIncomplete)
          (Some (indexOf arr.(elems) cur)) (Some (indexOf arr.(elems) tgt))) ∧
  (∀ e, guards g d = Rejected e → (run guards m).1 = inr (Uncaught e)).
Proof.
  intros Hg m d. subst m d. rewrite (isTargetStepAllowed_guard g Hg). cbn [run guard_calls pending_worlds].
  split; [|split].
  - by intros ->.
  - intros v -> Hv. destruct (is_false v) eqn:Hf.
    { by destruct v as [| |[]| | | | | |]. }
    by rewrite run_settle, completionRule_resolved.
  - by intros e ->.
Qed.


(** A guard that rejects leaves the check with its error, in the pending
    state: container and current step stay disabled. *)
Lemma rejected_guard_stays_pending (guards : nat → BeforeStepChangeData → settled) g e :
  js_or ps.(beforeStepChange) n.(props_beforeStepChange) = JFun g →
  guards g (mkData cur tgt (JNum (indexOf arr.(elems) tgt - indexOf arr.(elems) cur)))
    = Rejected e →
  run guards (isTargetStepAllowed (Some cur) tgt w)
  = (inr (Uncaught e), guard_pending (Some (p, n)) cur w).
Proof.
  intros Hg He. rewrite (isTargetStepAllowed_guard g Hg). cbn [run]. by rewrite He.
Qed.

End Navigation.

(** The example of the specification: steps [A; B; C], the policy off and
    only [B] invalid. *)
Example ex_A_to_C_vetoed :
  (run ex_guards (isTargetStepAllowed (Some 0%nat) 2%nat (ex_ABC (JBool false) JUndefined))).1
  = inl false.
Proof. reflexivity. Qed.

Example ex_A_to_B_allowed :
  (run ex_guards (isTargetStepAllowed (Some 0%nat) 1%nat (ex_ABC (JBool false) JUndefined))).1
  = inl true.
Proof. reflexivity. Qed.

Example ex_goTo_C_from_A :
  active_after (run ex_guards (goTo 0 (inr "C") (ex_ABC (JBool false) JUndefined)))
  = (inl tt, Some "A").
Proof. reflexivity. Qed.

Example ex_goTo_B_from_A :
  active_after (run ex_guards (goTo 0 (inr "B") (ex_ABC (JBool false) JUndefined)))
  = (inl tt, Some "B").
Proof. reflexivity. Qed.

Example ex_goTo_A_from_C :
  active_after
    (run ex_guards
       (goTo 0 (inr "A") (assign_activeStep 0 "C" (ex_ABC (JBool false) JUndefined))))
  = (inl tt, Some "A").
Proof. reflexivity. Qed.

Lemma C1_forward_veto_iff_witness :
  ∃ b, (run ex_guards
          (isTargetStepAllowed (Some 0%nat) 2%nat (ex_ABC (JBool false) JUndefined))).1
       = inl b ∧
       (b = false ↔
        forward_blocked (ex_ABC (JBool false) JUndefined)
          (ex_node ex_ABC_steps (JBool false) JUndefined)
          (mkArray 0 [0; 1; 2]%nat)
          (indexOf [0; 1; 2]%nat 0%nat) (indexOf [0; 1; 2]%nat 2%nat)).
Proof.
  apply (C1_forward_veto_iff (ex_ABC (JBool false) JUndefined) 0 2 0
           (ex_step "A" true JUndefined) (mkStepProps JUndefined)
           (ex_node ex_ABC_steps (JBool false) JUndefined)
           (mkArray 0 [0; 1; 2]%nat));
    try reflexivity.
  - discriminate.
  - change (0 ≤ 0 < 2). lia.
  - intros r Hr. simpl in Hr.
    repeat (apply elem_of_cons in Hr as [->|Hr]); try (eexists; reflexivity).
    by apply elem_of_nil in Hr.
Defined.

(** C1 fails as stated: with steps [A; B], the policy off and only the
    current step [A] invalid, the move from [A] to [B] is vetoed although
    no step lies strictly between the two. *)
Lemma C1_counterexample :
  ¬ ((run ex_guards
        (isTargetStepAllowed (Some 0%nat) 1%nat
           (ex_world ex_AB_steps (JBool false) JUndefined))).1 = inl false ↔
     between_blocked (ex_world ex_AB_steps (JBool false) JUndefined)
       (ex_node ex_AB_steps (JBool false) JUndefined) (mkArray 0 [0; 1]%nat)
       (indexOf [0; 1]%nat 0%nat) (indexOf [0; 1]%nat 1%nat)).
Proof.
  intros [Hveto _]. destruct (Hveto eq_refl) as (_ & j & r & Hj & _).
  change (0 < j < 1) in Hj. lia.
Qed.

Lemma C2_backward_always_allowed_witness :
  (run (λ _ _, Fulfilled (JBool false))
       (isTargetStepAllowed (Some 2%nat) 0%nat (ex_ABC (JBool false) (JFun 3)))).1
  = inl false ∧
  (run ex_guards
       (isTargetStepAllowed (Some 2%nat) 0%nat (ex_ABC (JBool false) (JFun 3)))).1
  = inl true.
Proof.
  assert (indexOf [0; 1; 2]%nat 0%nat < indexOf [0; 1; 2]%nat 2%nat) as Hbw
    by (change (0 < 2); lia).
  split.
  - pose proof (C2_backward_always_allowed (ex_ABC (JBool false) (JFun 3)) 2 0 0
                  (ex_step "C" true JUndefined) (mkStepProps JUndefined)
                  (ex_node ex_ABC_steps (JBool false) (JFun 3))
                  (mkArray 0 [0; 1; 2]%nat) eq_refl eq_refl eq_refl eq_refl eq_refl
                  ltac:(discriminate) (λ _ _, Fulfilled (JBool false)) Hbw)
      as (_ & _ & Hveto).
    apply Hveto. by exists 3%nat.
  - pose proof (C2_backward_always_allowed (ex_ABC (JBool false) (JFun 3)) 2 0 0
                  (ex_step "C" true JUndefined) (mkStepProps JUndefined)
                  (ex_node ex_ABC_steps (JBool false) (JFun 3))
                  (mkArray 0 [0; 1; 2]%nat) eq_refl eq_refl eq_refl eq_refl eq_refl
                  ltac:(discriminate) ex_guards Hbw)
      as (_ & Hallow & _).
    by apply (Hallow 3%nat JUndefined).
Defined.

Lemma C5_guard_invoked_once_witness :
  guard_calls ex_guards
    (isTargetStepAllowed (Some 0%nat) 2%nat (ex_ABC (JBool false) (JFun 3)))
  = [(3%nat, mkData 0 2 (JNum 2))].
Proof.
  apply (C5_guard_invoked_once (ex_ABC (JBool false) (JFun 3)) 0 2 0
           (ex_step "A" true JUndefined) (mkStepProps JUndefined)
           (ex_node ex_ABC_steps (JBool false) (JFun 3))
           (mkArray 0 [0; 1; 2]%nat) eq_refl eq_refl eq_refl eq_refl eq_refl
           ltac:(discriminate) ex_guards 3%nat eq_refl).
Defined.

(** C5 fails as stated: a guard registered on the target step's own props
    only is not invoked when navigating to that step. *)
Lemma C5_counterexample :
  (∃ tc tps, (ex_world ex_guarded_target_steps (JBool true) JUndefined).(contexts) !! 1%nat
             = Some tc ∧
             tc.(node).(props) = Some tps ∧ tps.(beforeStepChange) = JFun 7) ∧
  guard_calls ex_guards
    (isTargetStepAllowed (Some 0%nat) 1%nat
       (ex_world ex_guarded_target_steps (JBool true) JUndefined)) = [].
Proof. split; [by eexists _, _ | reflexivity]. Qed.

Lemma C6_guard_result_witness :
  (run (λ _ _, Fulfilled (JNum 0))
       (isTargetStepAllowed (Some 0%nat) 2%nat (ex_ABC (JBool false) (JFun 3)))).1
  = inl false.
Proof.
  pose proof (C6_guard_result (ex_ABC (JBool false) (JFun 3)) 0 2 0
           (ex_step "A" true JUndefined) (mkStepProps JUndefined)
           (ex_node ex_ABC_steps (JBool false) (JFun 3))
           (mkArray 0 [0; 1; 2]%nat) eq_refl eq_refl eq_refl eq_refl eq_refl
           ltac:(discriminate) (λ _ _, Fulfilled (JNum 0)) 3%nat eq_refl) as (_ & H & _).
  rewrite (H (JNum 0) eq_refl); [reflexivity | discriminate].
Defined.

(** C6 fails as stated: a guard that rejects is not an implicit allow. On
    the backward move from [C] to [A], which the completion rule allows,
    the check fails with the guard's error and gives no answer. *)
Lemma C6_counterexample :
  (run (λ _ _, Rejected (JStr "boom"))
       (isTargetStepAllowed (Some 2%nat) 0%nat (ex_ABC (JBool true) (JFun 3)))).1
  = inr (Uncaught (JStr "boom")) ∧
  completionRule (ex_ABC (JBool true) (JFun 3))
    (Some (0%nat, ex_node ex_ABC_steps (JBool true) (JFun 3))) (JBool true)
    (Some (indexOf [0; 1; 2]%nat 2%nat)) (Some (indexOf [0; 1; 2]%nat 0%nat))
  = inl true.
Proof. split; reflexivity. Qed.


(** ** The step registry *)

(** [forEach] with a body that updates the visited step in place. *)
Lemma forEach_alter_other (g : nat → StepContext → StepContext) (l : list nat) k
    (h : gmap nat StepContext) r :
  r ∉ l →
  forEach_from (λ step index h, alter (g index) step h) l k h !! r = h !! r.
Proof.
  revert k h. induction l as [|x l IH]; intros k h Hr; simpl; [done|].
  apply not_elem_of_cons in Hr as [Hrx Hr].
  rewrite IH by done. by rewrite lookup_alter_ne.
Qed.

Lemma forEach_alter_lookup (g : nat → StepContext → StepContext) (l : list nat) k
    (h : gmap nat StepContext) i r :
  NoDup l → l !! i = Some r →
  forEach_from (λ step index h, alter (g index) step h) l k h !! r
  = g (k + i)%nat <$> h !! r.
Proof.
  revert k h i. induction l as [|x l IH]; intros k h i Hnd Hi; [done|].
  apply NoDup_cons in Hnd as [Hx Hnd]. destruct i as [|i]; simpl in *.
  - injection Hi as ->. rewrite forEach_alter_other by done.
    rewrite lookup_alter_eq. by rewrite Nat.add_0_r.
  - rewrite (IH (S k) _ i) by done.
    assert (r ≠ x) as Hrx.
    { intros ->. apply Hx. by eapply list_elem_of_lookup_2. }
    rewrite lookup_alter_ne by done. by replace (S k + i)%nat with (k + S i)%nat by lia.
Qed.

(** Whatever a projection the body leaves alone, [forEach] leaves alone. *)
Lemma forEach_alter_preserves {A} (proj : StepContext → A)
    (g : nat → StepContext → StepContext) (l : list nat) k
    (h : gmap nat StepContext) r :
  (∀ i c, proj (g i c) = proj c) →
  proj <$> forEach_from (λ step index h, alter (g index) step h) l k h !! r
  = proj <$> h !! r.
Proof.
  intros Hg. revert k h. induction l as [|x l IH]; intros k h; simpl; [done|].
  rewrite IH. destruct (decide (x = r)) as [->|Hx].
  - rewrite lookup_alter_eq. destruct (h !! r); simpl; [|done]. by rewrite Hg.
  - by rewrite lookup_alter_ne.
Qed.

Lemma setNodePositionProps_lookup arr (h : gmap nat StepContext) i r :
  NoDup arr.(elems) → arr.(elems) !! i = Some r →
  setNodePositionProps (Some arr) h !! r
  = set_position (bool_decide (i = 0%nat))
                 (bool_decide (Z.of_nat i = Z.of_nat (length arr.(elems)) - 1))
                 i arr <$> h !! r.
Proof.
  intros Hnd Hi. unfold setNodePositionProps.
  by rewrite (forEach_alter_lookup
                (λ index, set_position (bool_decide (index = 0%nat))
                            (bool_decide (Z.of_nat index = Z.of_nat (length arr.(elems)) - 1))
                            index arr) _ 0 h i r).
Qed.

Lemma setNodePositionProps_name steps (h : gmap nat StepContext) r :
  step_name (setNodePositionProps steps h) r = step_name h r.
Proof.
  unfold step_name, setNodePositionProps. destruct steps as [arr|]; [|done].
  pose proof (forEach_alter_preserves node
                (λ index, set_position (bool_decide (index = 0%nat))
                            (bool_decide (Z.of_nat index = Z.of_nat (length arr.(elems)) - 1))
                            index arr) arr.(elems) 0 h r) as H.
  specialize (H (λ _ _, eq_refl)). simpl in H.
  destruct (forEach_from _ _ _ _ !! r), (h !! r); simpl in *; congruence.
Qed.

(** Renumbering a duplicate-free list of allocated steps makes the
    position metadata consistent with it. *)
Lemma setNodePositionProps_consistent arr (h : gmap nat StepContext) :
  NoDup arr.(elems) →
  (∀ r, r ∈ arr.(elems) → is_Some (h !! r)) →
  positions_consistent (setNodePositionProps (Some arr) h) arr.
Proof.
  intros Hnd Halloc i r Hi.
  destruct (Halloc r) as [c Hc]; [by eapply list_elem_of_lookup_2|].
  rewrite (setNodePositionProps_lookup arr h i r) by done. rewrite Hc. simpl.
  eexists. split; [done|]. simpl. split; [done|]. split; [|done].
  f_equal. apply bool_decide_ext.
  apply lookup_lt_Some in Hi. lia.
Qed.

(** Clearing [ordered] changes no step's name and frees no reference. *)
Lemma clear_ordered_lookup childNode (h : gmap nat StepContext) (r : nat) :
  clear_ordered childNode h !! r
  = if decide (childNode.(child_context) = Some r)
    then set_ordered false <$> h !! r
    else h !! r.
Proof.
  unfold clear_ordered. destruct (child_context childNode) as [ctx|].
  - destruct (decide (Some ctx = Some r)) as [[= ->]|Hne].
    + by rewrite lookup_alter_eq.
    + rewrite lookup_alter_ne; [done|]. intros ->. by apply Hne.
  - by rewrite decide_False.
Qed.

Lemma step_name_clear_ordered childNode (h : gmap nat StepContext) (r : nat) :
  step_name (clear_ordered childNode h) r = step_name h r.
Proof.
  unfold step_name. rewrite clear_ordered_lookup.
  destruct (decide _); [|done]. by destruct (h !! r).
Qed.

Lemma filter_removed_clear_ordered childNode h removed l k r0 :
  filter_removed (clear_ordered childNode h) removed l k r0
  = filter_removed h removed l k r0.
Proof.
  revert k r0. induction l as [|x l IH]; intros k r0; simpl; [done|].
  rewrite step_name_clear_ordered.
  destruct (decide (step_name h x ≠ removed)); by rewrite IH.
Qed.

Lemma is_Some_clear_ordered childNode (h : gmap nat StepContext) (r : nat) :
  is_Some (h !! r) → is_Some (clear_ordered childNode h !! r).
Proof.
  intros [c Hc]. rewrite clear_ordered_lookup, Hc. by destruct (decide _).
Qed.

(** The filter of [childRemoved] keeps what [filter] keeps. *)
Lemma filter_removed_kept h removed l k r0 :
  (filter_removed h removed l k r0).1 = filter (λ s, step_name h s ≠ removed) l.
Proof.
  revert k r0. induction l as [|x l IH]; intros k r0; simpl; [done|].
  rewrite filter_cons. destruct (decide (step_name h x ≠ removed)).
  - specialize (IH (k + 1) r0). destruct (filter_removed _ _ _ _ _). simpl in *.
    by rewrite IH.
  - apply IH.
Qed.

Lemma filter_removed_absent h removed l k r0 :
  removed ∉ step_name h <$> l →
  filter_removed h removed l k r0 = (l, r0).
Proof.
  revert k. induction l as [|x l IH]; intros k Hnot; simpl; [done|].
  rewrite fmap_cons in Hnot. apply not_elem_of_cons in Hnot as [Hx Hnot].
  rewrite decide_True by done. by rewrite IH.
Qed.

(** With unique step names, the filter drops the one step of that name and
    records its index. *)
Lemma filter_removed_unique h removed l k r0 i r :
  NoDup (step_name h <$> l) → l !! i = Some r → step_name h r = removed →
  filter_removed h removed l k r0 = (delete i l, k + Z.of_nat i).
Proof.
  revert k r0 i. induction l as [|x l IH]; intros k r0 i Hnd Hi Hname; [done|].
  rewrite fmap_cons in Hnd. apply NoDup_cons in Hnd as [Hx Hnd].
  destruct i as [|i]; simpl in *.
  - injection Hi as ->. rewrite decide_False by (intros H; by apply H).
    rewrite filter_removed_absent by (by rewrite <- Hname).
    f_equal. lia.
  - rewrite decide_True.
    + rewrite (IH (k + 1) r0 i) by done. f_equal. lia.
    + intros Hxn. apply Hx. rewrite Hxn, <- Hname.
      apply list_elem_of_fmap. exists r. split; [done|].
      by eapply list_elem_of_lookup_2.
Qed.

(** C4: when the active step is removed, the step names being unique,
    the new active step is the one at index [max(removedIndex - 1, 0)] of
    the remaining list, or the empty string when no step remains; removing
    any other step leaves the active step as it was. *)
Theorem C4_active_step_after_removal (w : World) (p : nat) (n : MultiStepNode)
    (arr : JSArray) (childNode : ChildNode) :
  w.(nodes) !! p = Some n →
  n.(props_steps) = Some arr →
  ∃ w' n' arr',
    on_childRemoved p childNode w = inl w' ∧
    w'.(nodes) !! p = Some n' ∧
    n'.(props_steps) = Some arr' ∧
    (n.(props_activeStep) ≠ Some childNode.(child_name) →
     n'.(props_activeStep) = n.(props_activeStep)) ∧
    (n.(props_activeStep) = Some childNode.(child_name) →
     ∀ i r,
       NoDup (step_name w.(contexts) <$> arr.(elems)) →
       arr.(elems) !! i = Some r →
       step_name w.(contexts) r = childNode.(child_name) →
       arr'.(elems) = delete i arr.(elems) ∧
       match arr'.(elems) !! Z.to_nat (Z.max (Z.of_nat i - 1) 0) with
       | Some s => n'.(props_activeStep) = Some (step_name w'.(contexts) s)
       | None => arr'.(elems) = [] ∧ n'.(props_activeStep) = Some ""
       end).
Proof.
  intros Hnode Hsteps. unfold on_childRemoved. rewrite Hnode. simpl.
  rewrite Hsteps. simpl. rewrite filter_removed_clear_ordered.
  destruct (filter_removed (contexts w) (child_name childNode) (elems arr) 0 (-1))
    as [kept removedStepIndex] eqn:Hfilter.
  simpl. eexists _, _, _. split; [done|]. simpl. rewrite lookup_insert_eq.
  split; [done|]. simpl. split; [done|]. split.
  - intros Hother. by rewrite decide_False.
  - intros Hactive i r Hnd Hi Hname. rewrite decide_True by done.
    rewrite (filter_removed_unique _ _ _ 0 (-1) i r Hnd Hi Hname) in Hfilter.
    injection Hfilter as <- <-. split; [done|]. cbn [elems].
    assert (at_index (delete i (elems arr))
              (if decide (0 < 0 + Z.of_nat i) then 0 + Z.of_nat i - 1 else 0)
            = delete i (elems arr) !! Z.to_nat (Z.max (Z.of_nat i - 1) 0)) as ->.
    { unfold at_index. destruct (decide (0 < 0 + Z.of_nat i)).
      - rewrite decide_False by lia. f_equal. lia.
      - rewrite decide_False by lia. f_equal. lia. }
    destruct (delete i (elems arr) !! _) as [s|] eqn:Hs; [done|].
    split; [|done].
    apply lookup_ge_None in Hs.
    pose proof (length_delete (elems arr) i (ex_intro _ r Hi)) as Hlen.
    apply lookup_lt_Some in Hi.
    apply nil_length_inv. lia.
Qed.

Lemma insert_by_perm cmp x l : insert_by cmp x l ≡ₚ x :: l.
Proof.
  induction l as [|y l IH]; simpl; [done|].
  destruct (decide (0 < cmp x y)); [|done].
  rewrite IH. apply Permutation_swap.
Qed.

Lemma insertion_sort_perm cmp l : insertion_sort cmp l ≡ₚ l.
Proof.
  induction l as [|x l IH]; simpl; [done|].
  by rewrite insert_by_perm, IH.
Qed.

Lemma registry_wf_perm (h : gmap nat StepContext) l l' :
  l' ≡ₚ l → registry_wf h l → registry_wf h l'.
Proof.
  intros Hp [Hnd Halloc]. split; [by rewrite Hp|].
  intros r Hr. apply Halloc. by rewrite <- Hp.
Qed.

Lemma registry_wf_filter (h : gmap nat StepContext) (P : nat → Prop)
    `{!∀ x, Decision (P x)} l :
  registry_wf h l → registry_wf h (filter P l).
Proof.
  intros [Hnd Halloc]. split; [by apply NoDup_filter|].
  intros r Hr. apply Halloc. by apply list_elem_of_filter in Hr as [_ Hr].
Qed.

Lemma registry_wf_snoc (h : gmap nat StepContext) l x :
  registry_wf h l → x ∉ l → is_Some (h !! x) → registry_wf h (l ++ [x]).
Proof.
  intros [Hnd Halloc] Hx Hsome. split.
  - apply NoDup_app. split; [done|]. split; [|apply NoDup_singleton].
    intros y Hy Hyx. apply list_elem_of_singleton in Hyx as ->. done.
  - intros r Hr. apply elem_of_app in Hr as [Hr|Hr]; [by apply Halloc|].
    by apply list_elem_of_singleton in Hr as ->.
Qed.

(** The list the child is appended to has no duplicate and only
    allocated steps; the world differs in its array counter only. *)
Lemma appended_steps_wf (w : World) (n : MultiStepNode) (ctx : nat) :
  is_Some (w.(contexts) !! ctx) →
  (∀ arr, n.(props_steps) = Some arr →
          registry_wf w.(contexts) arr.(elems) ∧ ctx ∉ arr.(elems)) →
  ∃ l2 k,
    appended_steps n ctx w = (mkArray k l2, mkWorld w.(contexts) w.(nodes) (S k)) ∧
    registry_wf w.(contexts) l2 ∧ ctx ∈ l2.
Proof.
  intros Hsome Hold. unfold appended_steps.
  assert (registry_wf w.(contexts) [ctx]) as Hone.
  { split; [apply NoDup_singleton|]. intros r Hr.
    by apply list_elem_of_singleton in Hr as ->. }
  assert (ctx ∈ [ctx]) as Hin1 by (by apply list_elem_of_singleton).
  assert (∀ l : list nat, ctx ∈ (l ++ [ctx])%list) as Hin2.
  { intros l. apply elem_of_app. by right. }
  destruct (props_steps n) as [arr|] eqn:Hsteps.
  - destruct (Hold arr eq_refl) as [Hwf Hfresh].
    destruct (bool_decide (0 < length (elems arr))%nat); simpl.
    + destruct (bool_decide _); eexists _, _; (split; [done|]); (split; [|done]);
        [|done].
      apply registry_wf_snoc; [by apply registry_wf_filter| |done].
      intros Hin. by apply list_elem_of_filter in Hin as [_ Hin].
    + destruct (bool_decide _); eexists _, _; (split; [done|]); (split; [|done]);
        [|done].
      by apply registry_wf_snoc.
  - simpl. by eexists _, _.
Qed.

Section RegistryTheory.

Variable isBrowser : bool.
Variable Array_sort : (nat → nat → Z) → list nat → list nat.

(** Whatever the comparator, sorting rearranges the array. *)
Hypothesis Array_sort_perm : ∀ cmp l, Array_sort cmp l ≡ₚ l.

(** [orderSteps] returns a rearrangement and allocates or frees no step. *)
Lemma orderSteps_wf root arr w :
  registry_wf w.(contexts) arr.(elems) →
  ∃ arr' w',
    orderSteps isBrowser Array_sort root (Some arr) w = (Some arr', w') ∧
    arr'.(elems) ≡ₚ arr.(elems) ∧
    registry_wf w'.(contexts) arr'.(elems) ∧
    w'.(nodes) = w.(nodes).
Proof.
  intros Hwf. unfold orderSteps. destruct isBrowser; simpl.
  - eexists _, _. split; [done|]. simpl. split; [apply Array_sort_perm|].
    split; [|done].
    apply (registry_wf_perm _ _ _
             (Array_sort_perm (compareSteps root (contexts w)) (elems arr)))
      in Hwf as [Hnd Halloc].
    split; [done|]. intros r Hr.
    pose proof (forEach_alter_preserves (λ _, tt) (λ _, set_ordered true)
                  (Array_sort (compareSteps root (contexts w)) (elems arr))
                  0 (contexts w) r (λ _ _, eq_refl)) as Hpres.
    apply Halloc in Hr as [c Hc]. rewrite Hc in Hpres.
    by destruct (forEach_from _ _ _ _ !! r).
  - by eexists _, _.
Qed.

(** The [child] handler, given a list in order and a child whose context
    is allocated and not yet listed. *)
Lemma on_child_consistent w p n childNode ctx :
  w.(nodes) !! p = Some n →
  childNode.(child_context) = Some ctx →
  is_Some (w.(contexts) !! ctx) →
  (∀ arr, n.(props_steps) = Some arr →
          registry_wf w.(contexts) arr.(elems) ∧ ctx ∉ arr.(elems)) →
  ∃ w' n' arr',
    on_child isBrowser Array_sort p childNode w = inl w' ∧
    w'.(nodes) !! p = Some n' ∧ n'.(props_steps) = Some arr' ∧
    ctx ∈ arr'.(elems) ∧
    registry_wf w'.(contexts) arr'.(elems) ∧
    positions_consistent w'.(contexts) arr'.
Proof.
  intros Hnode Hctx Hsome Hold.
  unfold on_child. rewrite Hnode, Hctx.
  destruct (appended_steps_wf w n ctx Hsome Hold) as (l2 & k & -> & Hwf2 & Hin2).
  destruct (orderSteps_wf n.(props___root) (mkArray k l2)
              (mkWorld w.(contexts) w.(nodes) (S k)) Hwf2)
    as (arr3 & w3 & -> & Hperm & Hwf3 & Hnodes).
  eexists _, _, _. split; [done|]. simpl. rewrite lookup_insert_eq.
  split; [done|]. simpl. split; [done|].
  split; [by rewrite Hperm|].
  destruct Hwf3 as [Hnd3 Halloc3].
  pose proof (setNodePositionProps_consistent arr3 _ Hnd3 Halloc3) as Hcons.
  split; [|done]. split; [done|].
  intros r Hr. destruct (list_elem_of_lookup_1 _ _ Hr) as [i Hi].
  destruct (Hcons i r Hi) as (c & Hc & _). by exists c.
Qed.

(** The [childRemoved] handler, given a list in order. *)
Lemma on_childRemoved_consistent w p n arr childNode :
  w.(nodes) !! p = Some n →
  n.(props_steps) = Some arr →
  registry_wf w.(contexts) arr.(elems) →
  ∃ w' n' arr',
    on_childRemoved p childNode w = inl w' ∧
    w'.(nodes) !! p = Some n' ∧ n'.(props_steps) = Some arr' ∧
    registry_wf w'.(contexts) arr'.(elems) ∧
    positions_consistent w'.(contexts) arr'.
Proof.
  intros Hnode Hsteps Hwf.
  unfold on_childRemoved. rewrite Hnode. simpl. rewrite Hsteps. simpl.
  rewrite filter_removed_clear_ordered.
  pose proof (filter_removed_kept (contexts w) (child_name childNode)
                (elems arr) 0 (-1)) as Hkept.
  destruct (filter_removed _ _ _ _ _) as [kept removedStepIndex]. simpl in Hkept.
  simpl. eexists _, _, _. split; [done|]. simpl. rewrite lookup_insert_eq.
  split; [done|]. simpl. split; [done|].
  assert (registry_wf (clear_ordered childNode (contexts w)) kept) as [Hnd Halloc].
  { rewrite Hkept. apply registry_wf_filter. destruct Hwf as [Hnd Halloc].
    split; [done|]. intros r Hr. by apply is_Some_clear_ordered, Halloc. }
  pose proof (setNodePositionProps_consistent (mkArray (next_array w) kept)
                _ Hnd Halloc) as Hcons.
  split; [|done]. split; [done|].
  intros r Hr. destruct (list_elem_of_lookup_1 _ _ Hr) as [i Hi].
  destruct (Hcons i r Hi) as (c & Hc & _). by exists c.
Qed.

(** C8: after a step is attached (a step with a context that is not yet in
    the list) and after a step is detached, every step of the container's
    list is first exactly at index 0, last exactly at index [length - 1],
    carries its array index as [stepIndex], and refers back to the
    container's current array; the list stays free of duplicates. *)
Theorem C8_position_metadata_consistent :
  (∀ w p n childNode ctx,
     w.(nodes) !! p = Some n →
     childNode.(child_context) = Some ctx →
     is_Some (w.(contexts) !! ctx) →
     (∀ arr, n.(props_steps) = Some arr →
             registry_wf w.(contexts) arr.(elems) ∧ ctx ∉ arr.(elems)) →
     ∃ w' n' arr',
       on_child isBrowser Array_sort p childNode w = inl w' ∧
       w'.(nodes) !! p = Some n' ∧ n'.(props_steps) = Some arr' ∧
       ctx ∈ arr'.(elems) ∧
       registry_wf w'.(contexts) arr'.(elems) ∧
       positions_consistent w'.(contexts) arr') ∧
  (∀ w p n arr childNode,
     w.(nodes) !! p = Some n →
     n.(props_steps) = Some arr →
     registry_wf w.(contexts) arr.(elems) →
     ∃ w' n' arr',
       on_childRemoved p childNode w = inl w' ∧
       w'.(nodes) !! p = Some n' ∧ n'.(props_steps) = Some arr' ∧
       registry_wf w'.(contexts) arr'.(elems) ∧
       positions_consistent w'.(contexts) arr').
Proof.
  split.
  - apply on_child_consistent.
  - apply on_childRemoved_consistent.
Qed.

(** Along any run of attach and detach events the registry stays in
    order, and after the first event it is consistent. *)
Lemma registry_step_consistent p w w' :
  container_wf p w →
  registry_step isBrowser Array_sort p w w' →
  container_consistent p w'.
Proof.
  intros (n & Hnode & Hwf) Hstep. destruct Hstep as
    [w w' childNode ctx Hctx Hsome Hfresh Hrun | w w' childNode Hrun].
  - destruct (on_child_consistent w p n childNode ctx Hnode Hctx Hsome)
      as (w1 & n1 & arr1 & Hrun1 & Hn1 & Hs1 & _ & Hwf1 & Hcons1).
    { intros arr Harr. split; [by apply Hwf | by eapply Hfresh]. }
    rewrite Hrun in Hrun1. injection Hrun1 as <-.
    by exists n1, arr1.
  - destruct (props_steps n) as [arr|] eqn:Hsteps.
    + destruct (on_childRemoved_consistent w p n arr childNode Hnode Hsteps)
        as (w1 & n1 & arr1 & Hrun1 & Hn1 & Hs1 & Hwf1 & Hcons1); [by apply Hwf|].
      rewrite Hrun in Hrun1. injection Hrun1 as <-.
      by exists n1, arr1.
    + unfold on_childRemoved in Hrun. rewrite Hnode in Hrun. simpl in Hrun.
      by rewrite Hsteps in Hrun.
Qed.

Lemma container_consistent_wf p w : container_consistent p w → container_wf p w.
Proof.
  intros (n & arr & Hnode & Hsteps & Hwf & _). exists n. split; [done|].
  intros arr' Harr'. rewrite Hsteps in Harr'. by injection Harr' as <-.
Qed.

Lemma registry_run_consistent p w w' :
  container_wf p w →
  tc (registry_step isBrowser Array_sort p) w w' →
  container_consistent p w'.
Proof.
  intros Hwf Hrun. induction Hrun as [w w' Hstep | w w1 w' Hstep Hrun IH].
  - by eapply registry_step_consistent.
  - apply IH. eapply container_consistent_wf, registry_step_consistent; done.
Qed.

End RegistryTheory.

Ltac solve_registry_wf :=
  split;
  [ compute_done
  | let r := fresh "r" in
    let Hr := fresh "Hr" in
    intros r Hr;
    repeat (apply elem_of_cons in Hr as [->|Hr]);
    try (eexists; reflexivity);
    by apply elem_of_nil in Hr ].

Lemma C4_active_step_after_removal_witness :
  ∃ w' n' arr',
    on_childRemoved 0 (mkChild "A" (Some 0%nat)) (ex_ABC (JBool true) JUndefined) = inl w' ∧
    w'.(nodes) !! 0%nat = Some n' ∧
    n'.(props_steps) = Some arr' ∧
    arr'.(elems) = [1; 2]%nat ∧
    n'.(props_activeStep) = Some "B".
Proof.
  destruct (C4_active_step_after_removal (ex_ABC (JBool true) JUndefined) 0
              (ex_node ex_ABC_steps (JBool true) JUndefined)
              (mkArray 0 [0; 1; 2]%nat) (mkChild "A" (Some 0%nat)) eq_refl eq_refl)
    as (w' & n' & arr' & Hrun & Hn & Hs & _ & Hactive).
  exists w', n', arr'. split; [done|]. split; [done|]. split; [done|].
  destruct (Hactive eq_refl 0%nat 0%nat) as [Harr Hnew];
    [compute_done | reflexivity | reflexivity |].
  rewrite Harr in Hnew |- *. split; [done|].
  vm_compute in Hrun. injection Hrun as <-. exact Hnew.
Defined.

(** C4 fails as stated: with steps [A; B; A] and [A] active, removing a
    child named [A] drops both steps of that name and records the index
    of the last one dropped, so the remaining list [B] is read at index 1:
    the active step becomes the empty string although step [B] remains. *)
Lemma C4_counterexample :
  (ex_node ex_ABA_steps (JBool true) JUndefined).(props_activeStep) = Some "A" ∧
  ∃ w' n' arr',
    on_childRemoved 0 (mkChild "A" (Some 0%nat))
      (ex_world ex_ABA_steps (JBool true) JUndefined) = inl w' ∧
    w'.(nodes) !! 0%nat = Some n' ∧ n'.(props_steps) = Some arr' ∧
    arr'.(elems) = [1%nat] ∧
    step_name w'.(contexts) 1%nat = "B" ∧
    n'.(props_activeStep) = Some "".
Proof.
  split; [reflexivity|].
  destruct (on_childRemoved 0 (mkChild "A" (Some 0%nat))
              (ex_world ex_ABA_steps (JBool true) JUndefined)) as [w'|e] eqn:Hrun;
    vm_compute in Hrun; [|discriminate].
  injection Hrun as <-. eexists _, _, _. split; [reflexivity|].
  split; [reflexivity|]. split; [reflexivity|]. by vm_compute.
Qed.

Lemma C8_position_metadata_consistent_witness :
  (∃ w' n' arr',
     on_child true insertion_sort 0 (mkChild "C" (Some 2%nat)) ex_before_attach = inl w' ∧
     w'.(nodes) !! 0%nat = Some n' ∧ n'.(props_steps) = Some arr' ∧
     2%nat ∈ arr'.(elems) ∧
     registry_wf w'.(contexts) arr'.(elems) ∧
     positions_consistent w'.(contexts) arr') ∧
  (∃ w' n' arr',
     on_childRemoved 0 (mkChild "B" (Some 1%nat)) (ex_ABC (JBool true) JUndefined) = inl w' ∧
     w'.(nodes) !! 0%nat = Some n' ∧ n'.(props_steps) = Some arr' ∧
     registry_wf w'.(contexts) arr'.(elems) ∧
     positions_consistent w'.(contexts) arr').
Proof.
  destruct (C8_position_metadata_consistent true insertion_sort insertion_sort_perm)
    as [Hattach Hdetach].
  split.
  - apply (Hattach ex_before_attach 0%nat
             (ex_node [ex_step "A" true JUndefined; ex_step "B" false JUndefined]
                      (JBool true) JUndefined)
             (mkChild "C" (Some 2%nat)) 2%nat eq_refl eq_refl).
    + by eexists.
    + intros arr [= <-]. split; [solve_registry_wf | compute_done].
  - apply (Hdetach (ex_ABC (JBool true) JUndefined) 0%nat
             (ex_node ex_ABC_steps (JBool true) JUndefined)
             (mkArray 0 [0; 1; 2]%nat) (mkChild "B" (Some 1%nat)) eq_refl eq_refl).
    solve_registry_wf.
Defined.

(** C10: when neither the node's allowIncomplete prop nor the plugin's
    allowIncomplete option is a boolean, the plugin sets the container's
    policy to [true]; every move between two steps of that container that
    no guard vetoes is then allowed, whatever the validity of the steps. *)
Theorem C10_allowIncomplete_defaults_true (options : option MultiStepOptions)
    (w : World) (p : nat) (n : MultiStepNode) :
  w.(nodes) !! p = Some n →
  n.(has_context) = true →
  typeof n.(props_allowIncomplete) ≠ TBoolean →
  typeof (from_option allowIncomplete JUndefined options) ≠ TBoolean →
  resolve_allowIncomplete options n.(props_allowIncomplete) = JBool true ∧
  (multiStepPlugin options p w).(nodes) !! p
    = Some (set_props_allowIncomplete (JBool true) n) ∧
  ∀ guards cur tgt c ps arr,
    w.(contexts) !! cur = Some c →
    c.(node).(parent) = Some p →
    c.(node).(props) = Some ps →
    n.(props_steps) = Some arr →
    (∀ g d, resolves_not_false (guards g d) = true) →
    (run guards (isTargetStepAllowed (Some cur) tgt (multiStepPlugin options p w))).1
    = inl true.
Proof.
  intros Hnode Hctx Hprop Hopt.
  assert (resolve_allowIncomplete options n.(props_allowIncomplete) = JBool true) as Hres.
  { unfold resolve_allowIncomplete.
    destruct (typeof (props_allowIncomplete n)); try done;
      by destruct (typeof (from_option allowIncomplete JUndefined options)). }
  assert ((multiStepPlugin options p w).(nodes) !! p
          = Some (set_props_allowIncomplete (JBool true) n)) as Hnode'.
  { unfold multiStepPlugin. rewrite Hnode, Hctx, Hres. simpl.
    by rewrite lookup_insert_eq. }
  split; [done|]. split; [done|].
  intros guards cur tgt c ps arr Hcur Hparent Hprops Hsteps Hguards.
  assert ((multiStepPlugin options p w).(contexts) !! cur = Some c) as Hcur'.
  { unfold multiStepPlugin. rewrite Hnode, Hctx. done. }
  destruct (decide (cur = tgt)) as [->|Hne].
  { unfold isTargetStepAllowed. by rewrite decide_True. }
  set (w' := multiStepPlugin options p w) in *.
  set (n' := set_props_allowIncomplete (JBool true) n) in *.
  assert (props_steps n' = Some arr) as Hsteps' by done.
  assert (completionRule w' (Some (p, n')) n'.(props_allowIncomplete)
            (Some (indexOf arr.(elems) cur)) (Some (indexOf arr.(elems) tgt))
          = inl true) as Hrule.
  { unfold completionRule. destruct (decide _); [done|].
    rewrite Hnode'. simpl. rewrite Hsteps. by apply intermediateSteps_allowIncomplete. }
  destruct (js_or ps.(beforeStepChange) n'.(props_beforeStepChange)) eqn:Hg;
    try (rewrite (isTargetStepAllowed_no_guard w' cur tgt p c ps n' arr)
           by (done || intros g'; congruence);
         by rewrite run_settle).
  rewrite (isTargetStepAllowed_guard w' cur tgt p c ps n' arr Hcur' Hparent Hprops
             Hnode' Hsteps' Hne f Hg).
  cbn [run].
  specialize (Hguards f (mkData cur tgt
    (JNum (indexOf (elems arr) tgt - indexOf (elems arr) cur)))).
  destruct (guards f _) as [v|e]; simpl in Hguards; [|done].
  apply negb_true_iff in Hguards. rewrite Hguards.
  rewrite run_settle.
  by rewrite (completionRule_resolved w' cur p c n' arr Hcur' Hnode' Hsteps').
Qed.

Lemma C10_allowIncomplete_defaults_true_witness :
  (run ex_guards
       (isTargetStepAllowed (Some 0%nat) 2%nat
          (multiStepPlugin None 0 (ex_ABC JUndefined JUndefined)))).1
  = inl true.
Proof.
  apply (C10_allowIncomplete_defaults_true None (ex_ABC JUndefined JUndefined) 0
           (ex_node ex_ABC_steps JUndefined JUndefined)
           eq_refl eq_refl ltac:(discriminate) ltac:(discriminate))
    with (c := ex_step "A" true JUndefined) (ps := mkStepProps JUndefined)
         (arr := mkArray 0 [0; 1; 2]%nat);
    reflexivity.
Defined.

End MultiStepTheory.

(** * Properties of the local-storage plugin *)

Module LocalStorageTheory.
Import LocalStorage.

Section PluginTheory.

Variable JSON_stringify : jsval → string.
Variable JSON_parse : string → option jsval.
Variable o : LocalStorageOptions.

Lemma String_eqb_empty (s : string) : s ≠ "" → String.eqb s "" = false.
Proof. intros Hs. by apply String.eqb_neq. Qed.

(** Without a save hook, a truthy payload is written under the storage
    key with the expiry [now + maxAge]. *)
Lemma saveValue_no_hook (payload : jsval) (st : Instance) :
  o.(beforeSave) = None → truthy payload = true →
  saveValue JSON_stringify o payload st
  = setItem (storageKey o st) (JSON_stringify (entry_of o st.(now) payload)) st.
Proof. intros Hhook Ht. unfold saveValue. by rewrite Hhook, Ht. Qed.

(** Without a load hook, loading a stored entry whose data is an object
    compares its expiry with the clock: the data is given to the node
    while the expiry is ahead, the entry is removed otherwise. *)
Lemma loadValue_entry (st : Instance) (s : string) (expiry : Z)
    (fields : list (string * jsval)) :
  o.(beforeLoad) = None →
  st.(localStorage) !! storageKey o st = Some s →
  s ≠ "" →
  JSON_parse s = Some (JObj [("maxAge", JNum expiry); ("data", JObj fields)]) →
  loadValue JSON_parse o None st
  = if bool_decide (st.(now) < expiry)
    then Done (node_input (JObj fields) st)
    else Done (removeItem (storageKey o st) st).
Proof.
  intros Hhook Hstored Hs Hparse. unfold loadValue.
  rewrite Hstored, (String_eqb_empty s Hs), Hparse.
  unfold loaded_data. rewrite Hhook. simpl.
  by destruct (bool_decide (now st < expiry)).
Qed.


(** The whole path: a commit while the flag is on, the debounce passing,
    and a later visit of the page (a new instance of the same form over
    the same store, created before the entry expires) puts the committed
    value back into the form. *)
Lemma commit_then_reload (V : list (string * jsval)) (st st' : Instance) (t : Z) :
  o.(beforeSave) = None →
  o.(beforeLoad) = None →
  truthy st.(useLocalStorage) = true →
  st.(now) + Z.max 0 (the_debounce o) ≤ t →
  survives_JSON JSON_stringify JSON_parse (entry_of o t (JObj V)) →
  st'.(node_name) = st.(node_name) →
  st'.(localStorage)
    = (tick JSON_stringify o t (on_commit o (JObj V) st)).(localStorage) →
  st'.(now) < t + the_maxAge o →
  ∃ st'', created JSON_parse o st' = Done st'' ∧ st''.(value) = JObj V.
Proof.
  intros Hsave Hload Hon Hdue [Hne Hrt] Hname Hstore Hfresh.
  unfold on_commit in Hstore. rewrite Hon in Hstore.
  unfold tick in Hstore. simpl in Hstore. rewrite decide_True in Hstore by done.
  rewrite saveValue_no_hook in Hstore by done. simpl in Hstore.
  unfold created.
  rewrite (loadValue_entry _ (JSON_stringify (entry_of o t (JObj V)))
             (t + the_maxAge o) V); try done.
  - rewrite bool_decide_true by done. by eexists.
  - simpl. rewrite Hstore. unfold storageKey. simpl. rewrite Hname.
    apply lookup_insert_eq.
Qed.

(** A commit schedules a save only while the closure's flag is on. *)
Lemma on_commit_off (payload : jsval) (st : Instance) :
  truthy st.(useLocalStorage) = false → on_commit o payload st = st.
Proof. intros Hoff. unfold on_commit. by rewrite Hoff. Qed.

(** Time passing writes nothing unless a save is pending. *)
Lemma tick_idle (t : Z) (st : Instance) :
  st.(saveTimeout) = None →
  (tick JSON_stringify o t st).(localStorage) = st.(localStorage).
Proof. intros Hidle. unfold tick. by rewrite Hidle. Qed.

(** A commit of the control field with a value other than [true] turns
    the flag off and removes the stored entry at once. *)
Lemma on_control_commit_off (v : jsval) (st : Instance) :
  control_listener o st = true →
  is_true v = false →
  truthy (on_control_commit o v st).(useLocalStorage) = false ∧
  (on_control_commit o v st).(localStorage) !! storageKey o st = None.
Proof.
  intros Hl Hv. unfold on_control_commit. rewrite Hl. simpl.
  unfold shouldUseLocalStorage. rewrite Hv. simpl.
  assert (truthy (js_and (undefine (props_useLocalStorage st)) (JBool false)) = false)
    as Hoff.
  { unfold js_and. by destruct (truthy (undefine _)) eqn:E. }
  rewrite Hoff. simpl. split; [done|]. apply lookup_delete_eq.
Qed.

(** The flag the [created] handler computes does not depend on the
    control field: it is the prop alone. *)
Lemma created_flag_ignores_control (st : Instance) (v : option jsval) :
  shouldUseLocalStorage None (with_control_value v st)
  = js_and (undefine st.(props_useLocalStorage)) (JBool true).
Proof. done. Qed.

End PluginTheory.

(** C9 fails on the code: a control field is configured and holds
    [false] when the plugin is created, the [useLocalStorage] prop is on.
    The flag is computed from the prop alone, so the next commit of the
    form is written to the store once the debounce has passed, although
    persistence is not enabled. *)
Theorem C9_written_while_control_off
    (JSON_stringify : jsval → string) (JSON_parse : string → option jsval) :
  ex_options.(control) = Some "remember" ∧
  ex_instance.(control_value) = Some (JBool false) ∧
  created JSON_parse ex_options ex_instance
    = Done (with_useLocalStorage (JBool true) ex_instance) ∧
  (tick JSON_stringify ex_options 1200
        (on_commit ex_options ex_value
                   (with_useLocalStorage (JBool true) ex_instance))).(localStorage)
    !! "formkit-contact"
  = Some (JSON_stringify (entry_of ex_options 1200 ex_value)).
Proof. repeat split. Qed.

(** The same through the prop handler: after a commit of the control
    field has turned persistence off, setting the [useLocalStorage] prop
    turns the flag on again without looking at the control field. *)
Example ex_prop_change_ignores_control :
  truthy (on_control_commit ex_options (JBool false)
            (with_useLocalStorage (JBool true) ex_instance)).(useLocalStorage) = false ∧
  truthy (on_prop_useLocalStorage ex_options (JBool true)
            (on_control_commit ex_options (JBool false)
               (with_useLocalStorage (JBool true) ex_instance))).(useLocalStorage) = true.
Proof. split; reflexivity. Qed.


End LocalStorageTheory.

(** * Further properties of the multi-step plugin *)

Module MultiStepCoverage.
Import MultiStep MultiStepTheory.

Lemma String_eqb_neq (s1 s2 : string) : s1 ≠ s2 → String.eqb s1 s2 = false.
Proof. intros H. by apply String.eqb_neq. Qed.

(** A target index before the current one: the rule allows the move. *)
Lemma completionRule_backward' w pn allow (ci ti : Z) :
  ti < ci → completionRule w (Some pn) allow (Some ci) (Some ti) = inl true.
Proof. intros Hbw. unfold completionRule. destruct pn. by rewrite decide_True. Qed.

(** ** Running a bound computation *)

Lemma run_bind {A B : Type} (guards : nat → BeforeStepChangeData → settled)
    (m : Async A) (f : A → World → Async B) :
  run guards (bind m f) =
  match run guards m with
  | (inl a, w) => run guards (f a w)
  | (inr e, w) => (inr e, w)
  end.
Proof. induction m as [r w|e w|g d w k IH]; simpl; [done | done | apply IH]. Qed.

Lemma guard_calls_bind_no_call {A B : Type}
    (guards : nat → BeforeStepChangeData → settled)
    (m : Async A) (f : A → World → Async B) :
  (∀ a w, guard_calls guards (f a w) = []) →
  guard_calls guards (bind m f) = guard_calls guards m.
Proof.
  intros Hf. induction m as [r w|e w|g d w k IH]; simpl; [apply Hf | done |].
  by rewrite IH.
Qed.

(** ** The frame of the permission check *)

Lemma same_but_pending_refl w : same_but_pending w w.
Proof. by repeat split. Qed.

Lemma same_but_pending_pending pn cur w :
  same_but_pending w (guard_pending pn cur w).
Proof.
  destruct pn as [[p n]|]; [|apply same_but_pending_refl].
  split; [|split; [|done]]; simpl.
  - intros r. destruct (decide (cur = r)) as [->|Hr].
    + rewrite lookup_alter_eq. by destruct (contexts w !! r).
    + by rewrite lookup_alter_ne.
  - intros q. destruct (decide (p = q)) as [->|Hq].
    + rewrite lookup_alter_eq. by destruct (nodes w !! q).
    + by rewrite lookup_alter_ne.
Qed.

Lemma same_but_pending_resolved pn cur w :
  same_but_pending w (guard_resolved pn cur (guard_pending pn cur w)).
Proof.
  destruct pn as [[p n]|]; [|apply same_but_pending_refl].
  split; [|split; [|done]]; simpl.
  - intros r. destruct (decide (cur = r)) as [->|Hr].
    + rewrite !lookup_alter_eq. by destruct (contexts w !! r).
    + by rewrite !lookup_alter_ne.
  - intros q. destruct (decide (p = q)) as [->|Hq].
    + rewrite !lookup_alter_eq. by destruct (nodes w !! q).
    + by rewrite !lookup_alter_ne.
Qed.

(** The check writes nothing but what awaiting a guard writes. *)
Lemma isTargetStepAllowed_same_but_pending (guards : nat → BeforeStepChangeData → settled)
    (currentStep : option nat) (targetStep : nat) (w : World) :
  same_but_pending w (run guards (isTargetStepAllowed currentStep targetStep w)).2.
Proof.
  unfold isTargetStepAllowed.
  destruct currentStep as [cur|]; [|apply same_but_pending_refl].
  destruct (decide (cur = targetStep)); [apply same_but_pending_refl|].
  destruct (contexts w !! cur) as [c|]; [|apply same_but_pending_refl].
  destruct (parentNode_of w c) as [pn|] eqn:Hpn;
    cbn -[guard_pending guard_resolved completionRule settle].
  - destruct (props_steps pn.2) as [arr|];
      cbn -[guard_pending guard_resolved completionRule settle];
      [|apply same_but_pending_refl].
    destruct (props (node c)) as [ps|]; [|apply same_but_pending_refl].
    destruct (js_or _ _); try (rewrite run_settle_world; apply same_but_pending_refl).
    cbn [run]. destruct (guards _ _) as [v|e].
    + destruct (is_false v); [apply same_but_pending_resolved|].
      rewrite run_settle_world. apply same_but_pending_resolved.
    + apply same_but_pending_pending.
  - destruct (props (node c)) as [ps|]; [|apply same_but_pending_refl].
    destruct (js_or _ _); try apply same_but_pending_refl.
    cbn [run]. destruct (guards _ _) as [v|e]; [|apply same_but_pending_refl].
    destruct (is_false v); apply same_but_pending_refl.
Qed.

Lemma same_but_pending_activeStep w w' q :
  same_but_pending w w' → activeStep_of w' q = activeStep_of w q.
Proof.
  intros (_ & Hn & _). specialize (Hn q). unfold activeStep_of.
  destruct (nodes w' !! q) as [n'|], (nodes w !! q) as [n|]; simpl in *; try done.
  by injection Hn as _ -> _.
Qed.

Lemma same_but_pending_has_context w w' q :
  same_but_pending w w' →
  has_context <$> w'.(nodes) !! q = has_context <$> w.(nodes) !! q.
Proof.
  intros (_ & Hn & _). specialize (Hn q).
  destruct (nodes w' !! q) as [n'|], (nodes w !! q) as [n|]; simpl in *; try done.
  injection Hn as _ _ _ _ _ ->. done.
Qed.

Lemma same_but_pending_valid w w' r :
  same_but_pending w w' → step_valid w'.(contexts) r = step_valid w.(contexts) r.
Proof.
  intros (Hc & _ & _). specialize (Hc r). unfold step_valid.
  destruct (contexts w' !! r) as [c'|], (contexts w !! r) as [c|]; simpl in *; try done.
  by injection Hc as _ _ -> _.
Qed.

(** X1: however it ends, the permission check leaves the world as it
    found it but for the [disabled] flag of step contexts and the
    [disabled] prop and message store of nodes; so it changes no
    container's active step and no step's validity. *)
Theorem isTargetStepAllowed_frame (guards : nat → BeforeStepChangeData → settled)
    (currentStep : option nat) (targetStep : nat) (w : World) :
  let w' := (run guards (isTargetStepAllowed currentStep targetStep w)).2 in
  same_but_pending w w' ∧
  (∀ q, activeStep_of w' q = activeStep_of w q) ∧
  (∀ r, step_valid w'.(contexts) r = step_valid w.(contexts) r).
Proof.
  intros w'.
  pose proof (isTargetStepAllowed_same_but_pending guards currentStep targetStep w)
    as Hframe.
  split; [exact Hframe|]. split.
  - intros q. by apply same_but_pending_activeStep.
  - intros r. by apply same_but_pending_valid.
Qed.

(** ** Changing the active step *)

(** X2: [setActiveStep] makes the target the active step of its container
    exactly when the permission check returns [true] and the container
    has a context; when the check vetoes or fails, or there is no context,
    no container's active step changes. *)
Theorem setActiveStep_only_when_allowed
    (guards : nat → BeforeStepChangeData → settled) (w : World) (t p : nat)
    (tc : StepContext) (n : MultiStepNode) (arr : JSArray) :
  w.(contexts) !! t = Some tc →
  tc.(node).(name) ≠ "" →
  tc.(node).(parent) = Some p →
  w.(nodes) !! p = Some n →
  n.(props_steps) = Some arr →
  let chk := run guards (isTargetStepAllowed
                           (find_by_name w.(contexts) arr.(elems) n.(props_activeStep))
                           t w) in
  let res := run guards (setActiveStep (Some t) w) in
  (chk.1 = inl true → n.(has_context) = true →
   res.1 = inl tt ∧ activeStep_of res.2 p = Some (Some tc.(node).(name)) ∧
   ∀ q, q ≠ p → activeStep_of res.2 q = activeStep_of w q) ∧
  (chk.1 ≠ inl true ∨ n.(has_context) = false →
   ∀ q, activeStep_of res.2 q = activeStep_of w q).
Proof.
  intros Ht Hname Hparent Hnode Hsteps chk res. subst chk res.
  unfold setActiveStep. simpl. rewrite Ht. simpl.
  rewrite (String_eqb_neq _ _ Hname). simpl.
  unfold parentNode_of. rewrite Hparent. simpl. rewrite Hnode. simpl.
  rewrite Hsteps, run_bind.
  pose proof (isTargetStepAllowed_same_but_pending guards
                (find_by_name (contexts w) (elems arr) (props_activeStep n)) t w)
    as Hframe.
  destruct (run guards (isTargetStepAllowed _ t w)) as [[stepIsAllowed|e] w'].
  - simpl in Hframe.
    pose proof (same_but_pending_has_context w w' p Hframe) as Hctx.
    rewrite Hnode in Hctx. simpl in Hctx.
    destruct (nodes w' !! p) as [n'|] eqn:Hn'; [|done].
    injection Hctx as Hctx. simpl. rewrite Hctx.
    split.
    + intros [= ->] Hhas. rewrite Hhas. simpl. split; [done|].
      unfold activeStep_of, assign_activeStep. simpl. split.
      * by rewrite lookup_alter_eq, Hn'.
      * intros q Hq. rewrite lookup_alter_ne by done.
        apply (same_but_pending_activeStep w w' q Hframe).
    + intros Hno q.
      assert (stepIsAllowed && has_context n = false) as ->.
      { destruct Hno as [Hno| ->]; [|by destruct stepIsAllowed].
        destruct stepIsAllowed; [by destruct Hno|done]. }
      apply (same_but_pending_activeStep w w' q Hframe).
  - simpl in *. split; [done|]. intros _ q.
    apply (same_but_pending_activeStep w w' q Hframe).
Qed.

(** X3: when [props.activeStep] names no step of the list, every call of
    [setActiveStep] with a step of the container fails with a TypeError
    (the current step is [undefined]) and leaves the world as it is:
    navigation by [goTo] or by a tab is stuck until the prop is repaired. *)
Theorem setActiveStep_without_current
    (guards : nat → BeforeStepChangeData → settled) (w : World) (t p : nat)
    (tc : StepContext) (n : MultiStepNode) (arr : JSArray) :
  w.(contexts) !! t = Some tc →
  tc.(node).(name) ≠ "" →
  tc.(node).(parent) = Some p →
  w.(nodes) !! p = Some n →
  n.(props_steps) = Some arr →
  find_by_name w.(contexts) arr.(elems) n.(props_activeStep) = None →
  run guards (setActiveStep (Some t) w) = (inr TypeError, w).
Proof.
  intros Ht Hname Hparent Hnode Hsteps Hnone.
  unfold setActiveStep. simpl. rewrite Ht. simpl.
  rewrite (String_eqb_neq _ _ Hname). simpl.
  unfold parentNode_of. rewrite Hparent. simpl. rewrite Hnode. simpl.
  by rewrite Hsteps, Hnone.
Qed.

(** ** Looking a step up *)

Lemma find_by_name_None (h : gmap nat StepContext) (l : list nat) (s : option string) :
  (∀ r c, r ∈ l → h !! r = Some c → Some c.(node).(name) ≠ s) →
  find_by_name h l s = None.
Proof.
  intros Hno. unfold find_by_name. induction l as [|x l IH]; simpl; [done|].
  destruct (h !! x) as [c|] eqn:Hx.
  - rewrite bool_decide_false by (eapply Hno; [apply list_elem_of_here|done]).
    apply IH. intros r c' Hr. apply Hno. by apply list_elem_of_further.
  - apply IH. intros r c' Hr. apply Hno. by apply list_elem_of_further.
Qed.

(** With unique names, the step found by its name is the step itself. *)
Lemma find_by_name_unique (h : gmap nat StepContext) (l : list nat) (i t : nat) :
  NoDup (step_name h <$> l) →
  (∀ r, r ∈ l → is_Some (h !! r)) →
  l !! i = Some t →
  find_by_name h l (Some (step_name h t)) = Some t.
Proof.
  unfold find_by_name. revert i. induction l as [|x l IH]; intros i Hnd Halloc Hi; [done|].
  rewrite fmap_cons in Hnd. apply NoDup_cons in Hnd as [Hx Hnd]. simpl.
  destruct (Halloc x) as [c Hc]; [apply list_elem_of_here|]. rewrite Hc.
  destruct i as [|i]; simpl in Hi.
  - injection Hi as ->. unfold step_name. rewrite Hc. simpl.
    by rewrite bool_decide_true.
  - rewrite bool_decide_false.
    + apply (IH i); [done| |done]. intros r Hr. apply Halloc. by apply list_elem_of_further.
    + intros [= Hsame]. apply Hx.
      replace (step_name h x) with (step_name h t)
        by (unfold step_name at 2; rewrite Hc; done).
      apply list_elem_of_fmap. exists t. split; [done|].
      by eapply list_elem_of_lookup_2.
Qed.

Lemma indexOf_from_NoDup (l : list nat) (i x : nat) (k : Z) :
  NoDup l → l !! i = Some x → indexOf_from l x k = k + Z.of_nat i.
Proof.
  revert i k. induction l as [|y l IH]; intros i k Hnd Hi; [done|].
  apply NoDup_cons in Hnd as [Hy Hnd]. destruct i as [|i]; simpl in *.
  - injection Hi as ->. rewrite decide_True by done. lia.
  - rewrite decide_False.
    + rewrite (IH i) by done. lia.
    + intros ->. apply Hy. by eapply list_elem_of_lookup_2.
Qed.

Lemma indexOf_NoDup (l : list nat) (i x : nat) :
  NoDup l → l !! i = Some x → indexOf l x = Z.of_nat i.
Proof. intros Hnd Hi. unfold indexOf. by rewrite (indexOf_from_NoDup l i x 0). Qed.

Lemma at_index_nat (l : list nat) (i : nat) : at_index l (Z.of_nat i) = l !! i.
Proof. unfold at_index. rewrite decide_False by lia. by rewrite Nat2Z.id. Qed.

Lemma at_index_out (l : list nat) (i : Z) :
  i < 0 ∨ Z.of_nat (length l) ≤ i → at_index l i = None.
Proof.
  intros Hout. unfold at_index. destruct (decide (i < 0)); [done|].
  apply lookup_ge_None. lia.
Qed.

(** ** [goTo] *)

(** X4: [goTo] with an index outside the list, or with a name no step of
    the list has, does nothing: the world is unchanged and no guard is
    called. *)
Theorem goTo_unknown_target (guards : nat → BeforeStepChangeData → settled)
    (w : World) (p : nat) (n : MultiStepNode) (arr : JSArray) (target : Z + string) :
  w.(nodes) !! p = Some n →
  n.(props_steps) = Some arr →
  match target with
  | inl i => i < 0 ∨ Z.of_nat (length arr.(elems)) ≤ i
  | inr s => ∀ r c, r ∈ arr.(elems) → w.(contexts) !! r = Some c → c.(node).(name) ≠ s
  end →
  run guards (goTo p target w) = (inl tt, w) ∧
  guard_calls guards (goTo p target w) = [].
Proof.
  intros Hnode Hsteps Hunknown. unfold goTo. rewrite Hnode. simpl. rewrite Hsteps.
  destruct target as [i|s].
  - by rewrite at_index_out.
  - rewrite find_by_name_None; [done|].
    intros r c Hr Hc [= Hs]. by eapply Hunknown.
Qed.

(** X5: when the names of the listed steps are unique, [goTo] by the
    index of a step and [goTo] by its name are the same navigation. *)
Theorem goTo_index_name_agree (w : World) (p : nat) (n : MultiStepNode)
    (arr : JSArray) (i t : nat) :
  w.(nodes) !! p = Some n →
  n.(props_steps) = Some arr →
  NoDup (step_name w.(contexts) <$> arr.(elems)) →
  (∀ r, r ∈ arr.(elems) → is_Some (w.(contexts) !! r)) →
  arr.(elems) !! i = Some t →
  goTo p (inl (Z.of_nat i)) w = goTo p (inr (step_name w.(contexts) t)) w.
Proof.
  intros Hnode Hsteps Hnd Halloc Hi. unfold goTo. rewrite Hnode. simpl.
  rewrite Hsteps, at_index_nat, Hi.
  by rewrite (find_by_name_unique _ _ i t Hnd Halloc Hi).
Qed.

(** ** [incrementStep] *)

Local Arguments isTargetStepAllowed : simpl never.
Local Arguments at_index : simpl never.

Section Increment.

Context (w : World) (cur p i : nat) (c : StepContext) (n : MultiStepNode)
        (arr : JSArray).

Hypothesis Hcur : w.(contexts) !! cur = Some c.
Hypothesis Hparent : c.(node).(parent) = Some p.
Hypothesis Hnode : w.(nodes) !! p = Some n.
Hypothesis Hsteps : n.(props_steps) = Some arr.
Hypothesis Hindex : c.(stepIndex) = Some i.

(** X6: a step by [delta] that would leave the list does nothing, without
    asking for permission; so [previous] on the first step and [next] on
    the last step are no-ops. *)
Theorem incrementStep_out_of_range (delta : Z) :
  Z.of_nat i + delta < 0 ∨ Z.of_nat (length arr.(elems)) ≤ Z.of_nat i + delta →
  incrementStep delta (Some cur) w = Return tt w.
Proof.
  intros Hout. unfold incrementStep. simpl. rewrite Hcur. simpl.
  destruct (negb _); [|done].
  unfold parentNode_of. rewrite Hparent. simpl. rewrite Hnode. simpl.
  rewrite Hsteps, Hindex. simpl. by rewrite at_index_out.
Qed.

Hypothesis Hname : c.(node).(name) ≠ "".
Hypothesis Hlisted : arr.(elems) !! i = Some cur.
Hypothesis Hnodup : NoDup arr.(elems).

Lemma incrementStep_target (guards : nat → BeforeStepChangeData → settled)
    (delta : Z) (t : nat) (tc : StepContext) :
  at_index arr.(elems) (Z.of_nat i + delta) = Some t →
  w.(contexts) !! t = Some tc →
  run guards (incrementStep delta (Some cur) w) =
  match run guards (isTargetStepAllowed (Some cur) t w) with
  | (inl true, w') =>
      match w'.(contexts) !! t with
      | Some tc' => (inl tt, assign_activeStep p tc'.(node).(name) w')
      | None => (inr TypeError, w')
      end
  | (inl false, w') => (inl tt, w')
  | (inr e, w') => (inr e, w')
  end.
Proof.
  intros Ht Htc. unfold incrementStep. simpl. rewrite Hcur. simpl.
  rewrite (String_eqb_neq _ _ Hname). simpl.
  unfold parentNode_of. rewrite Hparent. simpl. rewrite Hnode. simpl.
  rewrite Hsteps, Hindex. simpl. rewrite Ht, run_bind.
  destruct (run guards (isTargetStepAllowed (Some cur) t w)) as [[[]|e] w']; try done.
  simpl. by destruct (contexts w' !! t).
Qed.

Variable ps : StepProps.
Hypothesis Hprops : c.(node).(props) = Some ps.
Hypothesis Hno_guard :
  ∀ g, js_or ps.(beforeStepChange) n.(props_beforeStepChange) ≠ JFun g.

(** X7: with no guard registered, [next] moves to the following step
    exactly when the allowIncomplete policy is on or the current step is
    valid; otherwise it leaves the world as it is. *)
Theorem incrementStep_next (guards : nat → BeforeStepChangeData → settled)
    (t : nat) (tc : StepContext) :
  arr.(elems) !! S i = Some t →
  w.(contexts) !! t = Some tc →
  run guards (incrementStep 1 (Some cur) w) =
  (inl tt,
   if truthy n.(props_allowIncomplete) || step_valid w.(contexts) cur
   then assign_activeStep p tc.(node).(name) w
   else w).
Proof.
  intros Ht Htc.
  assert (cur ≠ t) as Hne.
  { intros ->. pose proof (NoDup_lookup _ _ _ _ Hnodup Hlisted Ht). lia. }
  rewrite (incrementStep_target guards 1 t tc); [|by rewrite <- Ht, <- at_index_nat; f_equal; lia|done].
  rewrite (isTargetStepAllowed_no_guard w cur t p c ps n arr) by done.
  rewrite (indexOf_NoDup _ i cur), (indexOf_NoDup _ (S i) t) by done.
  unfold completionRule. rewrite decide_False by lia.
  rewrite Hnode. simpl. rewrite Hsteps.
  replace (Z.to_nat (Z.of_nat (S i) - Z.of_nat i)) with 1%nat by lia.
  simpl. unfold step_valid.
  destruct (truthy (props_allowIncomplete n)); simpl.
  - by rewrite Htc.
  - rewrite Z.add_0_r, at_index_nat, Hlisted. simpl. rewrite Hcur. simpl.
    destruct (from_option valid false (state c)); simpl; [by rewrite Htc|done].
Qed.

(** X8: with no guard registered, [previous] always moves to the
    preceding step, whatever the validity of the steps and the policy. *)
Theorem incrementStep_previous (guards : nat → BeforeStepChangeData → settled)
    (j t : nat) (tc : StepContext) :
  i = S j →
  arr.(elems) !! j = Some t →
  w.(contexts) !! t = Some tc →
  run guards (incrementStep (-1) (Some cur) w) =
  (inl tt, assign_activeStep p tc.(node).(name) w).
Proof.
  intros Hi Ht Htc.
  assert (cur ≠ t) as Hne.
  { intros ->. pose proof (NoDup_lookup _ _ _ _ Hnodup Hlisted Ht). lia. }
  rewrite (incrementStep_target guards (-1) t tc);
    [|by rewrite <- Ht, <- at_index_nat; f_equal; lia|done].
  rewrite (isTargetStepAllowed_no_guard w cur t p c ps n arr) by done.
  rewrite (indexOf_NoDup _ i cur), (indexOf_NoDup _ j t) by done.
  rewrite completionRule_backward'. simpl. by rewrite Htc.
  lia.
Qed.

End Increment.

(** ** The registry's lists *)

Lemma filter_all (P : nat → Prop) `{!∀ x, Decision (P x)} (l : list nat) :
  (∀ x, x ∈ l → P x) → filter P l = l.
Proof.
  induction l as [|x l IH]; intros Hall; [done|].
  rewrite filter_cons_True by (apply Hall, list_elem_of_here).
  f_equal. apply IH. intros y Hy. by apply Hall, list_elem_of_further.
Qed.

(** The list the [child] handler builds before ordering it: the steps that
    are not placeholders, then the child's context. *)
Lemma appended_steps_elems (w : World) (n : MultiStepNode) (ctx : nat) :
  ∃ k, appended_steps n ctx w
       = (mkArray k ((real_steps w n ++ [ctx])%list), mkWorld w.(contexts) w.(nodes) (S k)).
Proof.
  unfold appended_steps, real_steps. destruct (props_steps n) as [arr|]; simpl.
  - destruct (bool_decide (0 < length (elems arr))%nat) eqn:Hlen; simpl.
    + destruct (filter _ (elems arr)) as [|x l] eqn:Hf; simpl; by eexists.
    + apply bool_decide_eq_false in Hlen.
      destruct (elems arr) as [|x l]; simpl in *; [by eexists|lia].
  - by eexists.
Qed.

Local Arguments setNodePositionProps : simpl never.

Section RegistryCoverage.

Variable isBrowser : bool.
Variable Array_sort : (nat → nat → Z) → list nat → list nat.
Hypothesis Array_sort_perm : ∀ cmp l, Array_sort cmp l ≡ₚ l.

(** [orderSteps] rearranges the list, touches nothing but the [ordered]
    flag of step contexts, and is the identity outside a browser. *)
Lemma orderSteps_effect root arr w :
  ∃ arr' w',
    orderSteps isBrowser Array_sort root (Some arr) w = (Some arr', w') ∧
    arr'.(elems) ≡ₚ arr.(elems) ∧
    (isBrowser = false → arr' = arr ∧ w' = w) ∧
    w'.(nodes) = w.(nodes) ∧
    ∀ r, set_ordered false <$> w'.(contexts) !! r
         = set_ordered false <$> w.(contexts) !! r.
Proof.
  unfold orderSteps. destruct isBrowser; simpl.
  - eexists _, _. split; [done|]. simpl. split; [apply Array_sort_perm|].
    split; [done|]. split; [done|]. intros r.
    apply (forEach_alter_preserves (set_ordered false) (λ _, set_ordered true)).
    done.
  - eexists _, _. by repeat split.
Qed.

Lemma ordered_blind {A} (proj : StepContext → A) (h h' : gmap nat StepContext) r :
  (∀ c, proj (set_ordered false c) = proj c) →
  set_ordered false <$> h' !! r = set_ordered false <$> h !! r →
  proj <$> h' !! r = proj <$> h !! r.
Proof.
  intros Hproj Heq. destruct (h' !! r) as [c'|], (h !! r) as [c|]; simpl in *; try done.
  f_equal. assert (set_ordered false c' = set_ordered false c) as Hsame by congruence.
  transitivity (proj (set_ordered false c')); [symmetry; apply Hproj|].
  rewrite Hsame. apply Hproj.
Qed.

(** What the [child] handler returns, in terms of the ordered list. *)
Lemma on_child_result w p n childNode ctx :
  w.(nodes) !! p = Some n →
  childNode.(child_context) = Some ctx →
  ∃ (arr' : JSArray) (h' : gmap nat StepContext) (k : nat),
    arr'.(elems) ≡ₚ (real_steps w n ++ [ctx])%list ∧
    (isBrowser = false → arr'.(elems) = (real_steps w n ++ [ctx])%list) ∧
    (∀ r, set_ordered false <$> h' !! r = set_ordered false <$> w.(contexts) !! r) ∧
    on_child isBrowser Array_sort p childNode w =
    inl (mkWorld (setNodePositionProps (Some arr') h')
           (<[p := set_props_activeStep
                     match n.(props_activeStep) with
                     | Some s =>
                         if String.eqb s ""
                         then match at_index arr'.(elems) 0 with
                              | Some first =>
                                  Some (step_name (setNodePositionProps (Some arr') h') first)
                              | None => Some ""
                              end
                         else Some s
                     | None =>
                         match at_index arr'.(elems) 0 with
                         | Some first =>
                             Some (step_name (setNodePositionProps (Some arr') h') first)
                         | None => Some ""
                         end
                     end
                     (set_props_steps (Some arr') n)]> w.(nodes))
           k).
Proof.
  intros Hnode Hctx. unfold on_child. rewrite Hnode, Hctx.
  destruct (appended_steps_elems w n ctx) as [k ->].
  destruct (orderSteps_effect n.(props___root) (mkArray k ((real_steps w n ++ [ctx])%list))
              (mkWorld w.(contexts) w.(nodes) (S k)))
    as (arr' & w' & -> & Hperm & Hid & Hnodes & Hctxs).
  exists arr', w'.(contexts), w'.(next_array).
  split; [done|]. split; [by intros Hb; destruct (Hid Hb) as [-> _]|].
  split; [done|]. rewrite Hnodes. simpl.
  destruct (props_activeStep n) as [s|]; [|done].
  by destruct (String.eqb s "").
Qed.

(** X9: attaching a child puts into the container's list exactly the
    steps that were there and are not placeholders, and the child's
    context: in that order outside a browser, rearranged by the sort in a
    browser. If the child is not a placeholder itself, no placeholder is
    left in the list. *)
Theorem on_child_list w p n childNode ctx :
  w.(nodes) !! p = Some n →
  childNode.(child_context) = Some ctx →
  ∃ w' n' arr',
    on_child isBrowser Array_sort p childNode w = inl w' ∧
    w'.(nodes) !! p = Some n' ∧ n'.(props_steps) = Some arr' ∧
    arr'.(elems) ≡ₚ (real_steps w n ++ [ctx])%list ∧
    (isBrowser = false → arr'.(elems) = (real_steps w n ++ [ctx])%list) ∧
    (is_placeholder w.(contexts) ctx = false →
     ∀ r, r ∈ arr'.(elems) → is_placeholder w'.(contexts) r = false).
Proof.
  intros Hnode Hctx.
  destruct (on_child_result w p n childNode ctx Hnode Hctx)
    as (arr' & h' & k & Hperm & Hid & Hh' & ->).
  eexists _, _, _. split; [done|]. simpl. rewrite lookup_insert_eq.
  split; [done|]. simpl. split; [done|]. split; [done|]. split; [done|].
  intros Hreal r Hr.
  assert (is_placeholder (setNodePositionProps (Some arr') h') r
          = is_placeholder w.(contexts) r) as ->.
  { unfold is_placeholder.
    assert (∀ o o' : option StepContext,
              __isPlaceholder <$> o = __isPlaceholder <$> o' →
              from_option __isPlaceholder false o = from_option __isPlaceholder false o')
      as Hfrom.
    { intros [?|] [?|] [=]; simpl; congruence. }
    apply Hfrom. etrans.
    - unfold setNodePositionProps.
      apply (forEach_alter_preserves __isPlaceholder
               (λ index, set_position (bool_decide (index = 0%nat))
                  (bool_decide (Z.of_nat index = Z.of_nat (length arr'.(elems)) - 1))
                  index arr')). done.
    - by apply ordered_blind. }
  rewrite Hperm in Hr. apply elem_of_app in Hr as [Hr|Hr].
  - unfold real_steps in Hr. destruct (props_steps n); [|by apply elem_of_nil in Hr].
    by apply list_elem_of_filter in Hr as [Hr _].
  - by apply list_elem_of_singleton in Hr as ->.
Qed.

(** X10: attaching a child never replaces an active step that is set (a
    non-empty name); when none is set, the first step of the new list
    becomes the active one, and that is the child itself when it is the
    only real step. *)
Theorem on_child_activeStep w p n childNode ctx :
  w.(nodes) !! p = Some n →
  childNode.(child_context) = Some ctx →
  ∃ w' n' arr',
    on_child isBrowser Array_sort p childNode w = inl w' ∧
    w'.(nodes) !! p = Some n' ∧ n'.(props_steps) = Some arr' ∧
    (∀ s, n.(props_activeStep) = Some s → s ≠ "" → n'.(props_activeStep) = Some s) ∧
    (n.(props_activeStep) = None ∨ n.(props_activeStep) = Some "" →
     ∃ first, arr'.(elems) !! 0%nat = Some first ∧
              n'.(props_activeStep) = Some (step_name w.(contexts) first) ∧
              (real_steps w n = [] → first = ctx)).
Proof.
  intros Hnode Hctx.
  destruct (on_child_result w p n childNode ctx Hnode Hctx)
    as (arr' & h' & k & Hperm & Hid & Hh' & ->).
  eexists _, _, _. split; [done|]. simpl. rewrite lookup_insert_eq.
  split; [done|]. simpl. split; [done|]. split.
  - intros s -> Hs. by rewrite (String_eqb_neq _ _ Hs).
  - intros Hunset.
    assert (∃ first, arr'.(elems) !! 0%nat = Some first) as [first Hfirst].
    { destruct (elems arr') as [|x l] eqn:Harr; [|by exists x].
      apply Permutation_nil_l in Hperm. by destruct (real_steps w n). }
    exists first. split; [done|].
    assert (step_name (setNodePositionProps (Some arr') h') first
            = step_name w.(contexts) first) as Hname.
    { rewrite setNodePositionProps_name. unfold step_name.
      pose proof (ordered_blind node w.(contexts) h' first (λ _, eq_refl) (Hh' first)) as H.
      by destruct (h' !! first), (contexts w !! first);
        simpl in *; try done; injection H as ->. }
    split.
    + change (at_index (elems arr') 0) with (elems arr' !! 0%nat).
      rewrite Hfirst, Hname. by destruct Hunset as [->| ->].
    + intros Hnone. rewrite Hnone in Hperm. simpl in Hperm.
      apply Permutation_singleton_r in Hperm. rewrite Hperm in Hfirst.
      by injection Hfirst as <-.
Qed.

(** X11: the callback run once a step's element is mounted keeps the same
    steps in the list (rearranged in a browser), leaves the active step
    alone, and makes the position metadata consistent with the list. *)
Theorem on_available_consistent w p n arr root :
  w.(nodes) !! p = Some n →
  n.(props_steps) = Some arr →
  registry_wf w.(contexts) arr.(elems) →
  ∃ n' arr',
    (on_available isBrowser Array_sort p root w).(nodes) !! p = Some n' ∧
    n'.(props_steps) = Some arr' ∧
    arr'.(elems) ≡ₚ arr.(elems) ∧
    n'.(props_activeStep) = n.(props_activeStep) ∧
    positions_consistent (on_available isBrowser Array_sort p root w).(contexts) arr'.
Proof.
  intros Hnode Hsteps Hwf. unfold on_available. rewrite Hnode, Hsteps.
  destruct (orderSteps_wf isBrowser Array_sort Array_sort_perm root arr w Hwf)
    as (arr' & w' & -> & Hperm & [Hnd Halloc] & Hnodes).
  exists (set_props_steps (Some arr') n), arr'. simpl. rewrite lookup_insert_eq.
  split; [done|]. split; [done|]. split; [done|]. split; [done|].
  by apply setNodePositionProps_consistent.
Qed.

End RegistryCoverage.

(** X12: detaching a child leaves in the list the steps whose name is
    not the child's, in their order: no step of that name remains, and a
    name no step has changes nothing in the list. The context of a step
    that is not in the new list keeps everything it had, stale position
    metadata included, but for the child's own context, whose [ordered]
    flag is cleared; and that flag is cleared whether or not the child's
    context is still listed. *)
Theorem on_childRemoved_list w p n arr childNode :
  w.(nodes) !! p = Some n →
  n.(props_steps) = Some arr →
  ∃ w' n' arr',
    on_childRemoved p childNode w = inl w' ∧
    w'.(nodes) !! p = Some n' ∧ n'.(props_steps) = Some arr' ∧
    arr'.(elems)
      = filter (λ r, step_name w.(contexts) r ≠ childNode.(child_name)) arr.(elems) ∧
    (∀ r, r ∈ arr'.(elems) → step_name w'.(contexts) r ≠ childNode.(child_name)) ∧
    ((∀ r, r ∈ arr.(elems) → step_name w.(contexts) r ≠ childNode.(child_name)) →
     arr'.(elems) = arr.(elems)) ∧
    (∀ r, r ∉ arr'.(elems) →
          w'.(contexts) !! r
          = if decide (childNode.(child_context) = Some r)
            then set_ordered false <$> w.(contexts) !! r
            else w.(contexts) !! r) ∧
    (∀ ctx, childNode.(child_context) = Some ctx →
            ordered <$> w'.(contexts) !! ctx = (λ _, false) <$> w.(contexts) !! ctx).
Proof.
  intros Hnode Hsteps. unfold on_childRemoved. rewrite Hnode. simpl.
  rewrite Hsteps. simpl. rewrite filter_removed_clear_ordered.
  pose proof (filter_removed_kept (contexts w) (child_name childNode)
                (elems arr) 0 (-1)) as Hkept.
  destruct (filter_removed _ _ _ _ _) as [kept removedStepIndex]. simpl in Hkept.
  subst kept. simpl. eexists _, _, _. split; [done|]. simpl.
  rewrite lookup_insert_eq. split; [done|]. simpl. split; [done|]. split; [done|].
  split; [|split; [|split]].
  - intros r Hr. rewrite setNodePositionProps_name, step_name_clear_ordered.
    by apply list_elem_of_filter in Hr as [Hr _].
  - intros Hnone. by apply filter_all.
  - intros r Hr. rewrite <- clear_ordered_lookup.
    unfold setNodePositionProps. by apply forEach_alter_other.
  - intros ctx Hctx.
    etrans.
    + unfold setNodePositionProps.
      apply (forEach_alter_preserves ordered
               (λ index, set_position (bool_decide (index = 0%nat))
                  (bool_decide (Z.of_nat index
                                = Z.of_nat (length (filter
                                    (λ r, step_name (contexts w) r ≠ child_name childNode)
                                    (elems arr))) - 1))
                  index
                  (mkArray (next_array w)
                     (filter (λ r, step_name (contexts w) r ≠ child_name childNode)
                             (elems arr))))). done.
    + rewrite clear_ordered_lookup, decide_True by done.
      by destruct (contexts w !! ctx).
Qed.

(** ** Titles *)

Lemma alnum_not_whitespace a : is_alnum a = true → is_whitespace a = false.
Proof. destruct a as [[] [] [] [] [] [] [] []]; vm_compute; congruence. Qed.

Lemma alnum_not_line_terminator a : is_alnum a = true → is_line_terminator a = false.
Proof. destruct a as [[] [] [] [] [] [] [] []]; vm_compute; congruence. Qed.

Lemma alnum_toUpperCase a : is_alnum a = true → is_alnum (toUpperCase a) = true.
Proof. destruct a as [[] [] [] [] [] [] [] []]; vm_compute; congruence. Qed.

Lemma upper_toUpperCase a : is_upper a = true → toUpperCase a = a.
Proof. destruct a as [[] [] [] [] [] [] [] []]; vm_compute; congruence. Qed.

Lemma upper_alnum a : is_upper a = true → is_alnum a = true.
Proof. unfold is_alnum. by intros ->. Qed.

(** No trailing white space to trim after spacing the capitals of letters
    and digits. *)
Lemma trimEnd_space_capitals s :
  all_alnum s = true → trimEnd (space_capitals s) = space_capitals s.
Proof.
  induction s as [|a s IH]; simpl; [done|].
  intros [Ha Hs]%andb_prop. specialize (IH Hs).
  pose proof (alnum_not_whitespace a Ha) as Hws.
  destruct (is_upper a); simpl; rewrite IH, Hws;
    by destruct (space_capitals s).
Qed.

Lemma trimEnd_cons_alnum a s :
  is_alnum a = true → trimEnd s = s → trimEnd (String a s) = String a s.
Proof.
  intros Ha Hs. simpl. rewrite Hs, (alnum_not_whitespace a Ha). by destruct s.
Qed.

(** X13: for a name made of letters and digits, [camel2title] gives the
    name with its first character in upper case and a space put before
    every later capital letter, and nothing else: no space is left at
    either end. *)
Theorem camel2title_alnum (a : ascii) (s : string) :
  all_alnum (String a s) = true →
  camel2title (Some (String a s)) = Some (String (toUpperCase a) (space_capitals s)).
Proof.
  intros [Ha Hs]%andb_prop. unfold camel2title, trim. f_equal.
  pose proof (trimEnd_space_capitals s Hs) as Hend.
  simpl. destruct (is_upper a) eqn:Hup.
  - unfold upper_first. change (is_line_terminator " ") with false.
    change (toUpperCase " ") with " "%char. cbn [trimStart].
    change (is_whitespace " ") with true. cbn iota.
    rewrite (alnum_not_whitespace a Ha), (upper_toUpperCase a Hup).
    by apply trimEnd_cons_alnum.
  - unfold upper_first. rewrite (alnum_not_line_terminator a Ha).
    pose proof (alnum_toUpperCase a Ha) as Hua.
    cbn [trimStart]. rewrite (alnum_not_whitespace _ Hua).
    by apply trimEnd_cons_alnum.
Qed.

(** ** Server-side placeholders *)

(** X14: [createSSRStepsFromTabs] makes one placeholder per tab, in the
    order of the tabs, each carrying its tab's name; exactly the first one
    is marked first and active, exactly the last one is marked last; and
    without tabs there is no placeholder. *)
Theorem createSSRStepsFromTabs_positions (tabs : list Tab) :
  createSSRStepsFromTabs None = [] ∧
  length (createSSRStepsFromTabs (Some tabs)) = length tabs ∧
  ∀ (i : nat) (ph : PlaceholderStep),
    createSSRStepsFromTabs (Some tabs) !! i = Some ph →
    ph.(ph___isPlaceholder) = true ∧
    (ph.(ph_isFirstStep) = true ↔ i = 0%nat) ∧
    (ph.(ph_isLastStep) = true ↔ S i = length tabs) ∧
    ph.(ph_isActiveStep) = ph.(ph_isFirstStep) ∧
    ∃ tab, tabs !! i = Some tab ∧ ph.(ph_node_name) = tab.(tab_props) ≫= tab_name.
Proof.
  split; [done|]. unfold createSSRStepsFromTabs. split; [apply length_imap|].
  intros i ph Hph. rewrite list_lookup_imap in Hph.
  destruct (tabs !! i) as [tab|] eqn:Htab; [|done].
  injection Hph as <-. simpl. split; [done|].
  apply lookup_lt_Some in Htab as Hlt.
  split; [by rewrite bool_decide_eq_true|].
  split; [rewrite bool_decide_eq_true; lia|]. split; [done|]. by exists tab.
Qed.

(** ** Instances *)

Lemma setActiveStep_only_when_allowed_witness :
  activeStep_of
    (run ex_guards
       (setActiveStep (Some 1%nat) (ex_ABC (JBool false) JUndefined))).2 0%nat
  = Some (Some "B") ∧
  activeStep_of
    (run ex_guards
       (setActiveStep (Some 2%nat)
          (assign_activeStep 0 "B" (ex_ABC (JBool false) JUndefined)))).2 0%nat
  = Some (Some "B").
Proof.
  split.
  - pose proof (setActiveStep_only_when_allowed ex_guards
                  (ex_ABC (JBool false) JUndefined) 1 0
                  (ex_step "B" false JUndefined)
                  (ex_node ex_ABC_steps (JBool false) JUndefined)
                  (mkArray 0 [0; 1; 2]%nat)
                  eq_refl ltac:(discriminate) eq_refl eq_refl eq_refl) as [Hyes _].
    destruct (Hyes ltac:(by vm_compute) eq_refl) as (_ & Hactive & _).
    exact Hactive.
  - pose proof (setActiveStep_only_when_allowed ex_guards
                  (assign_activeStep 0 "B" (ex_ABC (JBool false) JUndefined)) 2 0
                  (ex_step "C" true JUndefined)
                  (set_props_activeStep (Some "B")
                     (ex_node ex_ABC_steps (JBool false) JUndefined))
                  (mkArray 0 [0; 1; 2]%nat)
                  eq_refl ltac:(discriminate) eq_refl eq_refl eq_refl) as [_ Hno].
    rewrite (Hno ltac:(left; by vm_compute) 0%nat). by vm_compute.
Defined.

Lemma setActiveStep_without_current_witness :
  run ex_guards
    (setActiveStep (Some 1%nat)
       (assign_activeStep 0 "Z" (ex_ABC (JBool true) JUndefined)))
  = (inr TypeError, assign_activeStep 0 "Z" (ex_ABC (JBool true) JUndefined)).
Proof.
  apply (setActiveStep_without_current ex_guards
           (assign_activeStep 0 "Z" (ex_ABC (JBool true) JUndefined)) 1 0
           (ex_step "B" false JUndefined)
           (set_props_activeStep (Some "Z")
              (ex_node ex_ABC_steps (JBool true) JUndefined))
           (mkArray 0 [0; 1; 2]%nat)
           eq_refl ltac:(discriminate) eq_refl eq_refl eq_refl eq_refl).
Defined.

Lemma goTo_unknown_target_witness :
  (run ex_guards (goTo 0 (inl 3) (ex_ABC (JBool true) (JFun 3)))
   = (inl tt, ex_ABC (JBool true) (JFun 3)) ∧
   guard_calls ex_guards (goTo 0 (inl 3) (ex_ABC (JBool true) (JFun 3))) = []) ∧
  (run ex_guards (goTo 0 (inr "Z") (ex_ABC (JBool true) (JFun 3)))
   = (inl tt, ex_ABC (JBool true) (JFun 3)) ∧
   guard_calls ex_guards (goTo 0 (inr "Z") (ex_ABC (JBool true) (JFun 3))) = []).
Proof.
  split.
  - apply (goTo_unknown_target ex_guards (ex_ABC (JBool true) (JFun 3)) 0
             (ex_node ex_ABC_steps (JBool true) (JFun 3)) (mkArray 0 [0; 1; 2]%nat)
             (inl 3) eq_refl eq_refl).
    right. simpl. lia.
  - apply (goTo_unknown_target ex_guards (ex_ABC (JBool true) (JFun 3)) 0
             (ex_node ex_ABC_steps (JBool true) (JFun 3)) (mkArray 0 [0; 1; 2]%nat)
             (inr "Z") eq_refl eq_refl).
    intros r c Hr. simpl in Hr.
    repeat (apply elem_of_cons in Hr as [->|Hr]);
      try (intros [= <-]; discriminate).
    by apply elem_of_nil in Hr.
Defined.

Lemma goTo_index_name_agree_witness :
  goTo 0 (inl 1) (ex_ABC (JBool true) JUndefined)
  = goTo 0 (inr "B") (ex_ABC (JBool true) JUndefined).
Proof.
  apply (goTo_index_name_agree (ex_ABC (JBool true) JUndefined) 0
           (ex_node ex_ABC_steps (JBool true) JUndefined) (mkArray 0 [0; 1; 2]%nat)
           1 1 eq_refl eq_refl).
  - compute_done.
  - intros r Hr. simpl in Hr.
    repeat (apply elem_of_cons in Hr as [->|Hr]); try (eexists; reflexivity).
    by apply elem_of_nil in Hr.
  - reflexivity.
Defined.

Lemma incrementStep_out_of_range_witness :
  incrementStep (-1) (Some 0%nat) (ex_positioned (JBool true) JUndefined)
  = Return tt (ex_positioned (JBool true) JUndefined) ∧
  incrementStep 1 (Some 2%nat) (ex_positioned (JBool true) JUndefined)
  = Return tt (ex_positioned (JBool true) JUndefined).
Proof.
  split.
  - apply (incrementStep_out_of_range (ex_positioned (JBool true) JUndefined)
             0 0 0 (ex_positioned_step (JBool true) JUndefined 0)
             (ex_node ex_ABC_steps (JBool true) JUndefined) (mkArray 0 [0; 1; 2]%nat)
             ltac:(by vm_compute) eq_refl eq_refl eq_refl eq_refl (-1)).
    left. simpl. lia.
  - apply (incrementStep_out_of_range (ex_positioned (JBool true) JUndefined)
             2 0 2 (ex_positioned_step (JBool true) JUndefined 2)
             (ex_node ex_ABC_steps (JBool true) JUndefined) (mkArray 0 [0; 1; 2]%nat)
             ltac:(by vm_compute) eq_refl eq_refl eq_refl eq_refl 1).
    right. simpl. lia.
Defined.

Lemma incrementStep_next_witness :
  run ex_guards (incrementStep 1 (Some 0%nat) (ex_positioned (JBool false) JUndefined))
  = (inl tt, assign_activeStep 0 "B" (ex_positioned (JBool false) JUndefined)) ∧
  run ex_guards (incrementStep 1 (Some 1%nat) (ex_positioned (JBool false) JUndefined))
  = (inl tt, ex_positioned (JBool false) JUndefined).
Proof.
  split.
  - etrans.
    + apply (incrementStep_next (ex_positioned (JBool false) JUndefined)
               0 0 0 (ex_positioned_step (JBool false) JUndefined 0)
               (ex_node ex_ABC_steps (JBool false) JUndefined) (mkArray 0 [0; 1; 2]%nat)
               ltac:(by vm_compute) eq_refl eq_refl eq_refl eq_refl
               ltac:(discriminate) eq_refl ltac:(compute_done)
               (mkStepProps JUndefined) eq_refl ltac:(intros g; discriminate)
               ex_guards 1 (ex_positioned_step (JBool false) JUndefined 1)
               eq_refl ltac:(by vm_compute)).
    + by vm_compute.
  - etrans.
    + apply (incrementStep_next (ex_positioned (JBool false) JUndefined)
               1 0 1 (ex_positioned_step (JBool false) JUndefined 1)
               (ex_node ex_ABC_steps (JBool false) JUndefined) (mkArray 0 [0; 1; 2]%nat)
               ltac:(by vm_compute) eq_refl eq_refl eq_refl eq_refl
               ltac:(discriminate) eq_refl ltac:(compute_done)
               (mkStepProps JUndefined) eq_refl ltac:(intros g; discriminate)
               ex_guards 2 (ex_positioned_step (JBool false) JUndefined 2)
               eq_refl ltac:(by vm_compute)).
    + by vm_compute.
Defined.

Lemma incrementStep_previous_witness :
  run ex_guards (incrementStep (-1) (Some 1%nat) (ex_positioned (JBool false) JUndefined))
  = (inl tt, assign_activeStep 0 "A" (ex_positioned (JBool false) JUndefined)).
Proof.
  etrans.
  - apply (incrementStep_previous (ex_positioned (JBool false) JUndefined)
             1 0 1 (ex_positioned_step (JBool false) JUndefined 1)
             (ex_node ex_ABC_steps (JBool false) JUndefined) (mkArray 0 [0; 1; 2]%nat)
             ltac:(by vm_compute) eq_refl eq_refl eq_refl eq_refl
             ltac:(discriminate) eq_refl ltac:(compute_done)
             (mkStepProps JUndefined) eq_refl ltac:(intros g; discriminate)
             ex_guards 0 0 (ex_positioned_step (JBool false) JUndefined 0)
             eq_refl eq_refl ltac:(by vm_compute)).
  - by vm_compute.
Defined.

Lemma on_child_list_witness :
  ∃ w' n' arr',
    on_child false insertion_sort 0 (mkChild "C" (Some 2%nat)) ex_before_attach = inl w' ∧
    w'.(nodes) !! 0%nat = Some n' ∧ n'.(props_steps) = Some arr' ∧
    arr'.(elems) = [0; 1; 2]%nat.
Proof.
  destruct (on_child_list false insertion_sort insertion_sort_perm ex_before_attach 0
              (ex_node [ex_step "A" true JUndefined; ex_step "B" false JUndefined]
                       (JBool true) JUndefined)
              (mkChild "C" (Some 2%nat)) 2 eq_refl eq_refl)
    as (w' & n' & arr' & Hrun & Hn & Hs & _ & Hlist & _).
  exists w', n', arr'. split; [done|]. split; [done|]. split; [done|].
  by rewrite (Hlist eq_refl).
Defined.

Lemma on_child_activeStep_witness :
  ∃ w' n',
    on_child true insertion_sort 0 (mkChild "C" (Some 2%nat)) ex_before_attach = inl w' ∧
    w'.(nodes) !! 0%nat = Some n' ∧ n'.(props_activeStep) = Some "A".
Proof.
  destruct (on_child_activeStep true insertion_sort insertion_sort_perm ex_before_attach 0
              (ex_node [ex_step "A" true JUndefined; ex_step "B" false JUndefined]
                       (JBool true) JUndefined)
              (mkChild "C" (Some 2%nat)) 2 eq_refl eq_refl)
    as (w' & n' & arr' & Hrun & Hn & _ & Hkeep & _).
  exists w', n'. split; [done|]. split; [done|].
  apply Hkeep; [reflexivity | discriminate].
Defined.

Lemma on_available_consistent_witness :
  ∃ n' arr',
    (on_available true insertion_sort 0 None (ex_ABC (JBool true) JUndefined)).(nodes)
      !! 0%nat = Some n' ∧
    n'.(props_steps) = Some arr' ∧
    arr'.(elems) ≡ₚ [0; 1; 2]%nat ∧
    n'.(props_activeStep) = Some "A" ∧
    positions_consistent
      (on_available true insertion_sort 0 None (ex_ABC (JBool true) JUndefined)).(contexts)
      arr'.
Proof.
  apply (on_available_consistent true insertion_sort insertion_sort_perm
           (ex_ABC (JBool true) JUndefined) 0
           (ex_node ex_ABC_steps (JBool true) JUndefined) (mkArray 0 [0; 1; 2]%nat) None
           eq_refl eq_refl).
  solve_registry_wf.
Defined.

Lemma on_childRemoved_list_witness :
  ∃ w' n' arr',
    on_childRemoved 0 (mkChild "B" (Some 1%nat)) ex_sorted = inl w' ∧
    w'.(nodes) !! 0%nat = Some n' ∧ n'.(props_steps) = Some arr' ∧
    arr'.(elems) = [0; 2]%nat ∧
    ordered <$> ex_sorted.(contexts) !! 1%nat = Some true ∧
    w'.(contexts) !! 1%nat = set_ordered false <$> ex_sorted.(contexts) !! 1%nat.
Proof.
  destruct (on_childRemoved_list ex_sorted 0
              (set_props_steps (Some (mkArray 1 [0; 1; 2]%nat))
                 (ex_node ex_ABC_steps (JBool true) JUndefined))
              (mkArray 1 [0; 1; 2]%nat)
              (mkChild "B" (Some 1%nat)) ltac:(by vm_compute) eq_refl)
    as (w' & n' & arr' & Hrun & Hn & Hs & Hlist & _ & _ & Hrest & _).
  assert (elems arr' = [0; 2]%nat) as Harr by (rewrite Hlist; by vm_compute).
  exists w', n', arr'. split; [done|]. split; [done|]. split; [done|]. split; [done|].
  split; [by vm_compute|].
  rewrite Hrest; [reflexivity|].
  rewrite Harr. intros Hin.
  repeat (apply elem_of_cons in Hin as [Hin|Hin]; [discriminate|]).
  by apply elem_of_nil in Hin.
Defined.

Lemma camel2title_alnum_witness : camel2title (Some "stepOne") = Some "Step One".
Proof. apply (camel2title_alnum "s" "tepOne" eq_refl). Defined.

Lemma createSSRStepsFromTabs_positions_witness :
  ∃ ph, createSSRStepsFromTabs (Some ex_tabs) !! 1%nat = Some ph ∧
        ph.(ph_stepName) = Some "Step Two" ∧
        ph.(ph_isFirstStep) ≠ true ∧ ph.(ph_isLastStep) ≠ true ∧
        ph.(ph_isActiveStep) = ph.(ph_isFirstStep).
Proof.
  destruct (createSSRStepsFromTabs_positions ex_tabs) as (_ & _ & Hpos).
  eexists. split; [reflexivity|]. split; [reflexivity|].
  destruct (Hpos 1%nat _ eq_refl) as (_ & Hfirst & Hlast & Hactive & _).
  split; [|split; [|exact Hactive]].
  - intros H. apply Hfirst in H. discriminate.
  - intros H. apply Hlast in H. discriminate.
Defined.

End MultiStepCoverage.

(** * Further properties of the local-storage plugin *)

Module LocalStorageCoverage.
Import LocalStorage LocalStorageTheory.

Section PluginCoverage.

Variable JSON_stringify : jsval → string.
Variable JSON_parse : string → option jsval.
Variable o : LocalStorageOptions.

(** ** Only the form's own key *)

(** Same name, and the same store away from the key of [st]. *)
Lemma loaded_data_frame (v : jsval) (st : Instance) :
  (loaded_data o v st).2.(localStorage) = st.(localStorage) ∧
  (loaded_data o v st).2.(node_name) = st.(node_name) ∧
  (loaded_data o v st).2.(now) = st.(now).
Proof.
  unfold loaded_data. destruct (beforeLoad o) as [hook|]; [|done].
  destruct v; simpl; try done; destruct (hook _); done.
Qed.

Lemma loadValue_frame (forceValue : option string) (st st' : Instance) :
  loadValue JSON_parse o forceValue st = Done st' ∨
  (∃ e, loadValue JSON_parse o forceValue st = Thrown e st') →
  st'.(node_name) = st.(node_name) ∧
  ∀ k, k ≠ storageKey o st → st'.(localStorage) !! k = st.(localStorage) !! k.
Proof.
  unfold loadValue.
  set (value := match forceValue with
                | Some s => if String.eqb s "" then _ else _
                | None => _
                end).
  destruct value as [s|]; [|by intros [[= <-]|[e [=]]]].
  destruct (String.eqb s ""); [by intros [[= <-]|[e [=]]]|].
  destruct (JSON_parse s) as [v|]; [|by intros [[=]|[e [= _ <-]]]].
  pose proof (loaded_data_frame v st) as (Hstore & Hname & _).
  destruct (loaded_data o v st) as [data st1]. simpl in *.
  destruct (negb (truthy v)).
  { intros [[= <-]|[e [=]]]. by rewrite Hstore. }
  destruct (typeof data); try (intros [[= <-]|[e [=]]]; by rewrite Hstore).
  destruct (js_gt _ _) as [[]|]; intros [[= <-]|[e [=]]]; simpl.
  - by rewrite Hstore.
  - split; [done|]. intros k Hk. unfold storageKey. rewrite Hname.
    rewrite lookup_delete_ne by done. by rewrite Hstore.
Qed.

Lemma saveValue_frame (payload : jsval) (st : Instance) :
  (saveValue JSON_stringify o payload st).(node_name) = st.(node_name) ∧
  ∀ k, k ≠ storageKey o st →
       (saveValue JSON_stringify o payload st).(localStorage) !! k
       = st.(localStorage) !! k.
Proof.
  unfold saveValue.
  destruct (beforeSave o) as [hook|]; [destruct (hook payload) as [v|e]|];
    match goal with |- context [truthy ?x] => destruct (truthy x) end;
    simpl; split; try done; intros k Hk; by rewrite lookup_insert_ne.
Qed.

Lemma handle_frame (e : event) (st st' : Instance) :
  handle JSON_stringify JSON_parse o e st = Done st' ∨
  (∃ x, handle JSON_stringify JSON_parse o e st = Thrown x st') →
  st'.(node_name) = st.(node_name) ∧
  ∀ k, k ≠ storageKey o st → st'.(localStorage) !! k = st.(localStorage) !! k.
Proof.
  destruct e as [|payload|t|v|v| |]; simpl.
  - intros H. by apply (loadValue_frame None _ st') in H.
  - intros [[= <-]|[x [=]]]. unfold on_commit. by destruct (truthy _).
  - intros [[= <-]|[x [=]]]. unfold tick.
    destruct (saveTimeout st) as [[due payload]|]; [|done].
    destruct (decide (due ≤ t)); [|done].
    apply (saveValue_frame payload (with_saveTimeout None (with_now t st))).
  - intros [[= <-]|[x [=]]]. unfold on_control_commit.
    destruct (control_listener o st); [|done]. simpl.
    destruct (truthy _); simpl; [done|]. split; [done|].
    intros k Hk. by rewrite lookup_delete_ne.
  - intros [[= <-]|[x [=]]]. unfold on_prop_useLocalStorage. simpl.
    destruct (truthy _); simpl; [done|]. split; [done|].
    intros k Hk. by rewrite lookup_delete_ne.
  - intros [[= <-]|[x [=]]]. unfold on_submit. simpl. split; [done|].
    intros k Hk. by rewrite lookup_delete_ne.
  - unfold restoreCache. destruct (cachedLocalStorageData st) as [s|];
      [|by intros [[= <-]|[x [=]]]].
    destruct (String.eqb s ""); [by intros [[= <-]|[x [=]]]|].
    intros H. by apply (loadValue_frame (Some s) _ st') in H.
Qed.

(** X15: whatever happens to an instance, the plugin reads and writes
    [localStorage] under the form's own key only: after any sequence of
    events every other key holds what it held, and the form's key is the
    same key. *)
Theorem only_own_key (es : list event) (st st' : Instance) :
  handle_all JSON_stringify JSON_parse o es st = Some st' →
  storageKey o st' = storageKey o st ∧
  ∀ k, k ≠ storageKey o st → st'.(localStorage) !! k = st.(localStorage) !! k.
Proof.
  revert st. induction es as [|e es IH]; intros st Hrun; simpl in Hrun.
  - by injection Hrun as <-.
  - destruct (handle JSON_stringify JSON_parse o e st) as [st1|x st1|] eqn:He;
      [| |done].
    + destruct (handle_frame e st st1 (or_introl He)) as [Hname Hstore].
      destruct (IH st1 Hrun) as [Hkey Hrest].
      assert (storageKey o st1 = storageKey o st) as Hk1
        by (unfold storageKey; by rewrite Hname).
      split; [congruence|]. intros k Hk. rewrite Hrest by congruence. by apply Hstore.
    + destruct (handle_frame e st st1 (or_intror (ex_intro _ x He))) as [Hname Hstore].
      destruct (IH st1 Hrun) as [Hkey Hrest].
      assert (storageKey o st1 = storageKey o st) as Hk1
        by (unfold storageKey; by rewrite Hname).
      split; [congruence|]. intros k Hk. rewrite Hrest by congruence. by apply Hstore.
Qed.

(** ** Saving *)

Lemma on_commit_on (payload : jsval) (st : Instance) :
  truthy st.(useLocalStorage) = true →
  on_commit o payload st
  = with_saveTimeout (Some (st.(now) + Z.max 0 (the_debounce o), payload)) st.
Proof. intros Hon. unfold on_commit. by rewrite Hon. Qed.

Lemma tick_not_due (t : Z) (st : Instance) :
  (∀ due payload, st.(saveTimeout) = Some (due, payload) → t < due) →
  tick JSON_stringify o t st = with_now t st.
Proof.
  intros Hdue. unfold tick. destruct (saveTimeout st) as [[due payload]|]; [|done].
  rewrite decide_False; [done|]. specialize (Hdue due payload eq_refl). lia.
Qed.

Lemma tick_due (t due : Z) (payload : jsval) (st : Instance) :
  st.(saveTimeout) = Some (due, payload) → due ≤ t →
  tick JSON_stringify o t st
  = saveValue JSON_stringify o payload (with_saveTimeout None (with_now t st)).
Proof. intros Htimer Hdue. unfold tick. rewrite Htimer. by rewrite decide_True. Qed.

(** X16: a save goes through the [beforeSave] hook. What the hook
    resolves to is written in place of the payload, and nothing is written
    when that is falsy; when the hook rejects, the error is logged and the
    payload is written untransformed. *)
Theorem save_through_hook (hook : jsval → settled) (payload : jsval)
    (st : Instance) (t : Z) :
  o.(beforeSave) = Some hook →
  truthy st.(useLocalStorage) = true →
  st.(now) + Z.max 0 (the_debounce o) ≤ t →
  let st' := tick JSON_stringify o t (on_commit o payload st) in
  match hook payload with
  | Fulfilled v =>
      st'.(console_error) = st.(console_error) ∧
      st'.(localStorage) =
        if truthy v
        then <[storageKey o st := JSON_stringify (entry_of o t v)]> st.(localStorage)
        else st.(localStorage)
  | Rejected e =>
      st'.(console_error) = (st.(console_error) ++ [Uncaught e])%list ∧
      st'.(localStorage) =
        if truthy payload
        then <[storageKey o st := JSON_stringify (entry_of o t payload)]> st.(localStorage)
        else st.(localStorage)
  end.
Proof.
  intros Hhook Hon Hdue st'. subst st'.
  unfold on_commit. rewrite Hon. unfold tick. simpl.
  rewrite decide_True by done. unfold saveValue. rewrite Hhook.
  destruct (hook payload) as [v|e].
  - by destruct (truthy v).
  - by destruct (truthy payload).
Qed.

(** X17: the save is debounced through one timer. A second commit
    before the first one's timer is due replaces it: nothing is written
    until the second timer is due, and then only the second payload is
    written, with the expiry counted from that moment. *)
Theorem debounce_last_commit_wins (a b : jsval) (st : Instance) (t2 t3 : Z) :
  o.(beforeSave) = None →
  truthy st.(useLocalStorage) = true →
  truthy b = true →
  st.(now) ≤ t2 < st.(now) + Z.max 0 (the_debounce o) →
  t2 + Z.max 0 (the_debounce o) ≤ t3 →
  let s2 := tick JSON_stringify o t2 (on_commit o a st) in
  let s3 := on_commit o b s2 in
  let s4 := tick JSON_stringify o t3 s3 in
  s2.(localStorage) = st.(localStorage) ∧
  s3.(localStorage) = st.(localStorage) ∧
  s4.(localStorage)
    = <[storageKey o st := JSON_stringify (entry_of o t3 b)]> st.(localStorage) ∧
  s4.(saveTimeout) = None.
Proof.
  intros Hhook Hon Hb Ht2 Ht3 s2 s3 s4. subst s2 s3 s4.
  rewrite (on_commit_on a st Hon).
  rewrite tick_not_due by (intros due payload [= <- <-]; lia).
  rewrite on_commit_on by done.
  rewrite (tick_due t3 (t2 + Z.max 0 (the_debounce o)) b) by done.
  by rewrite saveValue_no_hook.
Qed.

(** X18: turning persistence off does not cancel a save that is already
    scheduled. A commit of the control field with a value other than
    [true] removes the entry, and the pending timer then writes it again. *)
Theorem pending_save_survives_turn_off (payload v : jsval) (st : Instance) (t : Z) :
  o.(beforeSave) = None →
  truthy st.(useLocalStorage) = true →
  truthy payload = true →
  control_listener o st = true →
  is_true v = false →
  st.(now) + Z.max 0 (the_debounce o) ≤ t →
  let s1 := on_control_commit o v (on_commit o payload st) in
  let s2 := tick JSON_stringify o t s1 in
  s1.(localStorage) !! storageKey o st = None ∧
  truthy s2.(useLocalStorage) = false ∧
  s2.(localStorage) !! storageKey o st
    = Some (JSON_stringify (entry_of o t payload)).
Proof.
  intros Hhook Hon Hp Hl Hv Hdue s1 s2. subst s1 s2.
  unfold on_commit. rewrite Hon.
  unfold on_control_commit.
  assert (control_listener o
            (with_saveTimeout (Some (now st + Z.max 0 (the_debounce o), payload)) st)
          = true) as -> by done.
  simpl. unfold shouldUseLocalStorage. rewrite Hv. simpl.
  assert (truthy (js_and (undefine (props_useLocalStorage st)) (JBool false)) = false)
    as Hoff.
  { unfold js_and. by destruct (truthy (undefine _)) eqn:E. }
  rewrite Hoff. simpl. split; [apply lookup_delete_eq|].
  unfold tick. simpl. rewrite decide_True by done.
  rewrite saveValue_no_hook by done. simpl. split; [done|].
  apply lookup_insert_eq.
Qed.

(** X19: setting the [useLocalStorage] prop to a value that switches it
    off ([undefined], [false] or the string false) removes the stored
    entry at once, and commits made afterwards schedule no save. *)
Theorem prop_off_purges (v payload : jsval) (st : Instance) :
  truthy (undefine v) = false →
  let s1 := on_prop_useLocalStorage o v st in
  s1.(localStorage) !! storageKey o st = None ∧
  on_commit o payload s1 = s1.
Proof.
  intros Hoff s1. subst s1. unfold on_prop_useLocalStorage. simpl.
  unfold shouldUseLocalStorage. simpl.
  assert (truthy (js_and (undefine v) (JBool true)) = false) as Hflag.
  { unfold js_and. by rewrite Hoff. }
  rewrite Hflag. simpl. split; [apply lookup_delete_eq|].
  unfold on_commit. simpl. by rewrite Hflag.
Qed.

(** ** Loading *)

(** X20: loading finds nothing to restore when the key is absent or
    holds the empty string: the instance is left as it is. When the key
    holds text that does not parse, the load fails with a SyntaxError and
    the entry stays in the store, so every later load fails the same way. *)
Theorem load_nothing_usable (st : Instance) :
  (st.(localStorage) !! storageKey o st = None ∨
   st.(localStorage) !! storageKey o st = Some "" →
   loadValue JSON_parse o None st = Done st) ∧
  (∀ s, st.(localStorage) !! storageKey o st = Some s → s ≠ "" →
        JSON_parse s = None →
        loadValue JSON_parse o None st = Thrown SyntaxError st).
Proof.
  unfold loadValue. split.
  - by intros [-> | ->].
  - intros s -> Hs Hparse. by rewrite (String_eqb_empty s Hs), Hparse.
Qed.

(** X21: with no [beforeLoad] hook, an entry that parses to a falsy
    value, or whose [data] is not an object (a number, a string, a
    boolean, missing), is neither restored nor removed, whether it has
    expired or not. *)
Theorem load_ignores_non_object (st : Instance) (s : string) (v : jsval) :
  o.(beforeLoad) = None →
  st.(localStorage) !! storageKey o st = Some s →
  JSON_parse s = Some v →
  truthy v = false ∨ typeof (get_prop v "data") ≠ TObject →
  loadValue JSON_parse o None st = Done st.
Proof.
  intros Hhook Hstored Hparse Hbad. unfold loadValue. rewrite Hstored.
  destruct (String.eqb s ""); [done|]. rewrite Hparse.
  unfold loaded_data. rewrite Hhook.
  destruct (truthy v); simpl; [|done].
  destruct Hbad as [|Hbad]; [done|].
  by destruct (typeof (get_prop v "data")).
Qed.

(** X22: a load goes through the [beforeLoad] hook, which is given the
    stored data. While the entry has not expired the node takes what the
    hook resolves to when that is an object, and the stored data itself,
    with the error logged, when the hook rejects; either way the form ends
    up enabled, whatever [disabled] was before. *)
Theorem load_through_hook (hook : jsval → settled) (st : Instance) (s : string)
    (expiry : Z) (fields : list (string * jsval)) :
  o.(beforeLoad) = Some hook →
  st.(localStorage) !! storageKey o st = Some s →
  s ≠ "" →
  JSON_parse s = Some (JObj [("maxAge", JNum expiry); ("data", JObj fields)]) →
  st.(now) < expiry →
  match hook (JObj fields) with
  | Fulfilled v =>
      typeof v = TObject →
      loadValue JSON_parse o None st
      = Done (node_input v (with_props_disabled false st))
  | Rejected e =>
      loadValue JSON_parse o None st
      = Done (node_input (JObj fields)
                (with_props_disabled false (log_error (Uncaught e) st)))
  end.
Proof.
  intros Hhook Hstored Hs Hparse Hfresh. unfold loadValue.
  rewrite Hstored, (String_eqb_empty s Hs), Hparse.
  unfold loaded_data. rewrite Hhook. simpl.
  destruct (hook (JObj fields)) as [v|e]; simpl.
  - intros ->. by rewrite bool_decide_true.
  - by rewrite bool_decide_true.
Qed.

(** ** Submit and restore *)

(** X23: a submit moves the entry from the store into the plugin's cache.
    [restoreCache] then gives the cached data back to the node while the
    cached entry has not expired, without writing the store; once it has
    expired, [restoreCache] restores nothing and removes whatever is stored
    under the key at that moment, a newer entry included. *)
Theorem submit_then_restore (st st2 : Instance) (s : string) (expiry : Z)
    (fields : list (string * jsval)) :
  o.(beforeLoad) = None →
  st.(localStorage) !! storageKey o st = Some s →
  s ≠ "" →
  JSON_parse s = Some (JObj [("maxAge", JNum expiry); ("data", JObj fields)]) →
  st2.(cachedLocalStorageData) = (on_submit o st).(cachedLocalStorageData) →
  (on_submit o st).(localStorage) !! storageKey o st = None ∧
  (on_submit o st).(cachedLocalStorageData) = Some s ∧
  restoreCache JSON_parse o st2
  = if bool_decide (st2.(now) < expiry)
    then Done (node_input (JObj fields) st2)
    else Done (removeItem (storageKey o st2) st2).
Proof.
  intros Hhook Hstored Hs Hparse Hcache.
  unfold on_submit in *. simpl in *. rewrite Hstored in Hcache.
  split; [apply lookup_delete_eq|]. split; [done|].
  unfold restoreCache. rewrite Hcache, (String_eqb_empty s Hs).
  unfold loadValue. rewrite (String_eqb_empty s Hs), Hparse.
  unfold loaded_data. rewrite Hhook. simpl.
  by rewrite (String_eqb_empty s Hs).
Qed.

(** ** The storage key *)

Lemma append_inv_head (s a b : string) : s +:+ a = s +:+ b → a = b.
Proof. induction s as [|c s IH]; simpl; [done|]. intros [= H]. by apply IH. Qed.

(** X24: under the same options, two forms share a storage key only if
    they have the same name. *)
Theorem storageKey_inj_name (st1 st2 : Instance) :
  storageKey o st1 = storageKey o st2 → st1.(node_name) = st2.(node_name).
Proof.
  unfold storageKey. intros H.
  by do 3 apply append_inv_head in H.
Qed.

End PluginCoverage.

(** ** Instances *)

Lemma only_own_key_witness :
  ∃ st',
    handle_all ex_JSON_stringify ex_JSON_parse ex_options
      [Created; PropUseLocalStorage (JBool true); Commit ex_value; Tick 1200;
       Submit; RestoreCache; PropUseLocalStorage (JBool false)]
      ex_stored = Some st' ∧
    st'.(localStorage) !! "other-app" = Some "kept".
Proof.
  eexists. split; [by vm_compute|].
  edestruct (only_own_key ex_JSON_stringify ex_JSON_parse ex_options
               [Created; PropUseLocalStorage (JBool true); Commit ex_value; Tick 1200;
                Submit; RestoreCache; PropUseLocalStorage (JBool false)]
               ex_stored) as [_ Hrest]; [by vm_compute|].
  rewrite Hrest; [reflexivity | by vm_compute].
Defined.

Lemma save_through_hook_witness :
  (tick ex_JSON_stringify (ex_hooks (Some ex_rejecting_hook) None) 1200
        (on_commit (ex_hooks (Some ex_rejecting_hook) None) ex_value ex_saving)).(console_error)
  = [Uncaught (JStr "offline")] ∧
  (tick ex_JSON_stringify (ex_hooks (Some ex_rejecting_hook) None) 1200
        (on_commit (ex_hooks (Some ex_rejecting_hook) None) ex_value ex_saving)).(localStorage)
  = {[ "formkit-contact" := "entry-1000" ]}.
Proof.
  pose proof (save_through_hook ex_JSON_stringify (ex_hooks (Some ex_rejecting_hook) None)
                ex_rejecting_hook ex_value ex_saving 1200 eq_refl eq_refl
                ltac:(by vm_compute)) as [Hlog Hstore].
  split; [exact Hlog|]. rewrite Hstore. by vm_compute.
Defined.

Lemma debounce_last_commit_wins_witness :
  (tick ex_JSON_stringify ex_options 1350
     (on_commit ex_options ex_value
        (tick ex_JSON_stringify ex_options 1100
           (on_commit ex_options (JObj []) ex_saving)))).(localStorage)
  !! "formkit-contact"
  = Some (ex_JSON_stringify (entry_of ex_options 1350 ex_value)).
Proof.
  pose proof (debounce_last_commit_wins ex_JSON_stringify ex_options (JObj []) ex_value
                ex_saving 1100 1350 eq_refl eq_refl eq_refl
                ltac:(by vm_compute) ltac:(by vm_compute)) as (_ & _ & Hstore & _).
  rewrite Hstore. by vm_compute.
Defined.

Lemma pending_save_survives_turn_off_witness :
  (on_control_commit ex_options (JBool false)
     (on_commit ex_options ex_value ex_saving)).(localStorage) !! "formkit-contact"
  = None ∧
  (tick ex_JSON_stringify ex_options 1200
     (on_control_commit ex_options (JBool false)
        (on_commit ex_options ex_value ex_saving))).(localStorage) !! "formkit-contact"
  = Some (ex_JSON_stringify (entry_of ex_options 1200 ex_value)).
Proof.
  pose proof (pending_save_survives_turn_off ex_JSON_stringify ex_options ex_value
                (JBool false) ex_saving 1200 eq_refl eq_refl eq_refl eq_refl eq_refl
                ltac:(by vm_compute)) as (Hgone & _ & Hback).
  split; [exact Hgone | exact Hback].
Defined.

Lemma prop_off_purges_witness :
  (on_prop_useLocalStorage ex_options (JStr "false") ex_stored).(localStorage)
  !! "formkit-contact" = None ∧
  on_commit ex_options ex_value (on_prop_useLocalStorage ex_options (JStr "false") ex_stored)
  = on_prop_useLocalStorage ex_options (JStr "false") ex_stored.
Proof.
  apply (prop_off_purges ex_options (JStr "false") ex_value ex_stored eq_refl).
Defined.

Lemma load_nothing_usable_witness :
  loadValue ex_JSON_parse ex_options None ex_instance = Done ex_instance ∧
  loadValue ex_JSON_parse ex_options None
    (with_localStorage {[ "formkit-contact" := "{oops" ]} ex_instance)
  = Thrown SyntaxError (with_localStorage {[ "formkit-contact" := "{oops" ]} ex_instance).
Proof.
  split.
  - apply (load_nothing_usable ex_JSON_parse ex_options ex_instance). by left.
  - apply (load_nothing_usable ex_JSON_parse ex_options
             (with_localStorage {[ "formkit-contact" := "{oops" ]} ex_instance))
      with (s := "{oops"); [reflexivity | discriminate | reflexivity].
Defined.

Lemma load_ignores_non_object_witness :
  loadValue ex_JSON_parse_number ex_options None (with_now 9000 ex_stored)
  = Done (with_now 9000 ex_stored).
Proof.
  apply (load_ignores_non_object ex_JSON_parse_number ex_options (with_now 9000 ex_stored)
           "entry-1000" (JObj [("maxAge", JNum 5000); ("data", JNum 3)])
           eq_refl ltac:(by vm_compute) eq_refl).
  right. discriminate.
Defined.

Lemma load_through_hook_witness :
  loadValue ex_JSON_parse (ex_hooks None (Some ex_stripping_hook)) None
    (with_props_disabled true ex_stored)
  = Done (node_input (JObj []) ex_stored) ∧
  loadValue ex_JSON_parse (ex_hooks None (Some ex_rejecting_hook)) None ex_stored
  = Done (node_input ex_value (log_error (Uncaught (JStr "offline")) ex_stored)).
Proof.
  split.
  - pose proof (load_through_hook ex_JSON_parse (ex_hooks None (Some ex_stripping_hook))
                  ex_stripping_hook (with_props_disabled true ex_stored) "entry-1000"
                  3601000 [("email", JStr "ada@example.org")]
                  eq_refl ltac:(by vm_compute) ltac:(discriminate) eq_refl
                  ltac:(by vm_compute)) as Hload.
    exact (Hload eq_refl).
  - exact (load_through_hook ex_JSON_parse (ex_hooks None (Some ex_rejecting_hook))
             ex_rejecting_hook ex_stored "entry-1000"
             3601000 [("email", JStr "ada@example.org")]
             eq_refl ltac:(by vm_compute) ltac:(discriminate) eq_refl
             ltac:(by vm_compute)).
Defined.

Lemma submit_then_restore_witness :
  (on_submit ex_options ex_stored).(localStorage) !! "formkit-contact" = None ∧
  restoreCache ex_JSON_parse ex_options (on_submit ex_options ex_stored)
  = Done (node_input ex_value (on_submit ex_options ex_stored)) ∧
  restoreCache ex_JSON_parse ex_options
    (setItem "formkit-contact" "newer" (with_now 3601000 (on_submit ex_options ex_stored)))
  = Done (with_now 3601000 (on_submit ex_options ex_stored)).
Proof.
  split; [|split].
  - apply (submit_then_restore ex_JSON_parse ex_options ex_stored
             (on_submit ex_options ex_stored) "entry-1000" 3601000
             [("email", JStr "ada@example.org")]
             eq_refl ltac:(by vm_compute) ltac:(discriminate) eq_refl eq_refl).
  - pose proof (submit_then_restore ex_JSON_parse ex_options ex_stored
                  (on_submit ex_options ex_stored) "entry-1000" 3601000
                  [("email", JStr "ada@example.org")]
                  eq_refl ltac:(by vm_compute) ltac:(discriminate) eq_refl eq_refl)
      as (_ & _ & Hrestore).
    rewrite Hrestore. by vm_compute.
  - pose proof (submit_then_restore ex_JSON_parse ex_options ex_stored
                  (setItem "formkit-contact" "newer"
                     (with_now 3601000 (on_submit ex_options ex_stored)))
                  "entry-1000" 3601000 [("email", JStr "ada@example.org")]
                  eq_refl ltac:(by vm_compute) ltac:(discriminate) eq_refl eq_refl)
      as (_ & _ & Hrestore).
    rewrite Hrestore. by vm_compute.
Defined.

Lemma storageKey_inj_name_witness :
  ex_instance.(node_name) = (with_now 5 ex_stored).(node_name).
Proof.
  apply (storageKey_inj_name ex_options ex_instance (with_now 5 ex_stored) eq_refl).
Defined.

End LocalStorageCoverage.

(** * Properties of the auto-animate observer *)

Module AutoAnimateCoverage.
Import AutoAnimate.

Section ObserverCoverage.

Context {Options : Type} (empty_options : Options).

Lemma observe_each_pending (doc : Document) (l : list (string * option Options))
    timeout :
  (observe_each doc l timeout).1
  = filter (λ e, doc.(mounted) e.1 = false) l.
Proof.
  revert timeout. induction l as [|[id options] l IH]; intros timeout; simpl; [done|].
  rewrite filter_cons. simpl. destruct (mounted doc id) eqn:Hm.
  - rewrite decide_False by done. apply IH.
  - rewrite decide_True by done. specialize (IH timeout).
    destruct (observe_each _ _ _). simpl in *. by rewrite IH.
Qed.

(** The timer after a pass: the options of the last pending id that was
    found, or the timer there was. *)
Lemma observe_each_timeout (doc : Document) (l : list (string * option Options))
    timeout :
  (observe_each doc l timeout).2
  = match last (filter (λ e, doc.(mounted) e.1 = true) l) with
    | Some e => Some e.2
    | None => timeout
    end.
Proof.
  revert timeout. induction l as [|[id options] l IH]; intros timeout; simpl; [done|].
  rewrite filter_cons. simpl. destruct (mounted doc id) eqn:Hm.
  - rewrite decide_True by done. rewrite IH, last_cons.
    by destruct (last (filter _ l)).
  - rewrite decide_False by done. specialize (IH timeout).
    destruct (observe_each _ _ _). simpl in *. by rewrite IH.
Qed.

(** X25: after a mutation is observed, the ids still awaited are exactly
    the awaited ids whose element is not in the document, in their order
    and with their options; and the observer, if it was connected, stays
    connected exactly when some id is still awaited. *)
Theorem observer_lifecycle (doc : Document) (st : State Options) :
  (on_mutation doc st).(pendingIds)
    = filter (λ e, doc.(mounted) e.1 = false) st.(pendingIds) ∧
  ((on_mutation doc st).(observer) = true ↔
   st.(observer) = true ∧ ∃ e, e ∈ st.(pendingIds) ∧ doc.(mounted) e.1 = false).
Proof.
  unfold on_mutation, observeIds.
  pose proof (observe_each_pending doc st.(pendingIds) st.(observerTimeout)) as Hp.
  destruct (observe_each _ _ _) as [pending timeout]. simpl in *. subst pending.
  destruct (filter _ (pendingIds st)) as [|e l] eqn:Hf; simpl.
  - split; [by destruct (observer st)|]. split.
    + destruct (observer st); simpl; done.
    + intros [_ (e & He & Hm)].
      assert (e ∈ filter (λ e, mounted doc e.1 = false) (pendingIds st)) as Hin
        by (by apply list_elem_of_filter).
      rewrite Hf in Hin. by apply elem_of_nil in Hin.
  - split; [done|]. split.
    + intros Ho. split; [done|]. exists e.
      assert (e ∈ filter (λ e, mounted doc e.1 = false) (pendingIds st)) as Hin
        by (rewrite Hf; apply list_elem_of_here).
      by apply list_elem_of_filter in Hin as [? ?].
    + by intros [Ho _].
Qed.

(** X26: the animation is debounced through one timer. When a pass finds
    awaited ids, the timer it leaves closes over the options of the last
    of them, whatever timer was pending; when that timer fires, every
    marked element is animated once, with the override registered under
    its attribute value if there is one, else with those options, else
    with the empty options. *)
Theorem animate_with_last_found (doc doc' : Document) (st : State Options)
    (id : string) (options : option Options) :
  last (filter (λ e, doc.(mounted) e.1 = true) st.(pendingIds)) = Some (id, options) →
  let st1 := observeIds doc st in
  st1.(observerTimeout) = Some options ∧
  (on_timeout empty_options doc' st1).(observerTimeout) = None ∧
  (on_timeout empty_options doc' st1).(animated)
    = (st.(animated) ++
       ((λ t, (t.1,
              match (if String.eqb t.2 "" then None else st.(optionOverrides) !! t.2) with
              | Some ov => ov
              | None => default empty_options options
              end)) <$> doc'.(targets)))%list.
Proof.
  intros Hlast st1. subst st1. unfold observeIds.
  pose proof (observe_each_timeout doc st.(pendingIds) st.(observerTimeout)) as Ht.
  destruct (observe_each _ _ _) as [pending timeout]. simpl in *.
  rewrite Hlast in Ht. simpl in Ht. subst timeout.
  unfold on_timeout. simpl. done.
Qed.

End ObserverCoverage.

Lemma animate_with_last_found_witness :
  (observeIds ex_document ex_state).(pendingIds) = [("email", None)] ∧
  (on_timeout 0 ex_document (observeIds ex_document ex_state)).(animated)
  = [(0%nat, 250); (1%nat, 100)].
Proof.
  split; [reflexivity|].
  pose proof (animate_with_last_found 0 ex_document ex_document ex_state "name" (Some 250)
                eq_refl) as (_ & _ & Hanimated).
  rewrite Hanimated. reflexivity.
Defined.

End AutoAnimateCoverage.
